(** * OpenManus Web UI: a model of [webui.py] and its properties

    The development follows the source file top to bottom: Python text and
    the two library operations the controller relies on ([str.strip] and
    [str.format]), the [TRANSLATIONS] table and [WebUI.get_text], the
    controller methods written as programs over an explicit effect
    signature, a sequential interpreter that records every effect, and a
    scheduler that interleaves several calls on one controller. *)

From Stdlib Require Import NArith Ascii String List Bool Lia.
From stdpp Require Import base option list gmap strings fin_maps.

Open Scope N_scope.

(** ** Python text *)

(** A Python [str] is a sequence of Unicode code points. *)
Definition pystr := list N.

Module Utf8.

(** Source literals are written as UTF-8 in this file and decoded to the
    code points the Python literal denotes. *)
Definition bytes_of (s : string) : list N :=
  map N_of_ascii (list_ascii_of_string s).

Definition cont (b : N) : N := b - 128.

Fixpoint decode (bs : list N) : pystr :=
  match bs with
  | [] => []
  | b :: t1 =>
      if b <? 128 then b :: decode t1
      else if b <? 224 then
        match t1 with
        | c1 :: t2 => ((b - 192) * 64 + cont c1) :: decode t2
        | [] => []
        end
      else if b <? 240 then
        match t1 with
        | c1 :: c2 :: t3 =>
            ((b - 224) * 4096 + cont c1 * 64 + cont c2) :: decode t3
        | _ => []
        end
      else
        match t1 with
        | c1 :: c2 :: c3 :: t4 =>
            ((b - 240) * 262144 + cont c1 * 4096 + cont c2 * 64 + cont c3)
              :: decode t4
        | _ => []
        end
  end.

End Utf8.

Definition u (s : string) : pystr := Utf8.decode (Utf8.bytes_of s).

(** [bool(s)] for a [str]: the empty string is falsy. *)
Definition truthy (s : pystr) : bool :=
  match s with [] => false | _ :: _ => true end.

(** *** [str.strip()] *)

(** [str.isspace] on one code point: the characters CPython lists as
    whitespace. *)
Definition isspace (c : N) : bool :=
  ((9 <=? c) && (c <=? 13)) || ((28 <=? c) && (c <=? 32))
  || (c =? 133) || (c =? 160) || (c =? 5760)
  || ((8192 <=? c) && (c <=? 8202))
  || (c =? 8232) || (c =? 8233) || (c =? 8239) || (c =? 8287)
  || (c =? 12288).

Fixpoint lstrip (s : pystr) : pystr :=
  match s with
  | c :: s' => if isspace c then lstrip s' else s
  | [] => []
  end.

Definition rstrip (s : pystr) : pystr := rev (lstrip (rev s)).

Definition strip (s : pystr) : pystr := rstrip (lstrip s).

(** ** Exceptions and results *)

(** The exception classes the controller can meet.  [OtherException]
    stands for any other subclass of [Exception] a collaborator raises and
    [NonException] for a [BaseException] that is not an [Exception]
    (cancellation, interrupt, exit). *)
Inductive exn : Type :=
| KeyError (key : pystr)
| IndexError (msg : pystr)
| ValueError (msg : pystr)
| AttributeError (msg : pystr)
| OtherException (msg : pystr)
| NonException (msg : pystr).

(** [isinstance(e, Exception)], the filter of [except Exception]. *)
Definition is_Exception (e : exn) : bool :=
  match e with NonException _ => false | _ => true end.

Inductive result (A : Type) : Type :=
| Ok (a : A)
| Raised (e : exn).
Arguments Ok {A} a.
Arguments Raised {A} e.

(** [repr] of a [str], modelled for text made only of printable ASCII
    other than the quote and the backslash, where it is the text between
    single quotes; [None] outside that fragment. *)
Definition plain_char (c : N) : bool :=
  (32 <=? c) && (c <=? 126) && negb (c =? 39) && negb (c =? 92).

Definition py_repr (s : pystr) : option pystr :=
  if forallb plain_char s then Some ([39] ++ s ++ [39]) else None.

(** [str(e)]. A [KeyError] prints the [repr] of its key. *)
Definition str_exn (e : exn) : option pystr :=
  match e with
  | KeyError k => py_repr k
  | IndexError m | ValueError m | AttributeError m
  | OtherException m | NonException m => Some m
  end.

(** *** [str.format] *)

Definition lbrace : N := 123.
Definition rbrace : N := 125.

(** Characters that start a conversion, a format specification, an
    attribute or index access, or a nested field. *)
Definition field_special (c : N) : bool :=
  (c =? 33) || (c =? 58) || (c =? 46) || (c =? 91) || (c =? lbrace).

Definition is_digit (c : N) : bool := (48 <=? c) && (c <=? 57).

Definition emit (c : N) (r : option (result pystr)) : option (result pystr) :=
  match r with
  | Some (Ok s) => Some (Ok (c :: s))
  | other => other
  end.

Definition emit_str (v : pystr) (r : option (result pystr))
  : option (result pystr) :=
  match r with
  | Some (Ok s) => Some (Ok (v ++ s))
  | other => other
  end.

(** A replacement field whose name is [name], followed by the formatted
    [rest] of the template. The field is looked up before the rest of the
    template is read, so its error comes first. With keyword arguments
    only, an empty name asks for positional argument 0; an all-digit name
    is outside the model. *)
Definition replace_field (kwargs : gmap pystr pystr) (name : pystr)
    (rest : option (result pystr)) : option (result pystr) :=
  match name with
  | [] => Some (Raised (IndexError
            (u "Replacement index 0 out of range for positional args tuple")))
  | _ :: _ =>
      if forallb is_digit name then None
      else match kwargs !! name with
           | Some v => emit_str v rest
           | None => Some (Raised (KeyError name))
           end
  end.

(** [template.format] with keyword arguments [kwargs], for templates
    whose fields are plain names: literal text, the escapes [{{] and [}}],
    and [{name}].  The result is [None] when the template leaves that
    fragment. The two arguments of [format_from] are the text still to
    read and, inside a field, the name read so far. *)
Fixpoint format_from (kwargs : gmap pystr pystr) (t : pystr)
    (field : option pystr) : option (result pystr) :=
  match field, t with
  | None, [] => Some (Ok [])
  | None, c :: t1 =>
      if c =? lbrace then
        match t1 with
        | [] => Some (Raised (ValueError
                  (u "Single '{' encountered in format string")))
        | c1 :: t2 =>
            if c1 =? lbrace then emit lbrace (format_from kwargs t2 None)
            else format_from kwargs t1 (Some [])
        end
      else if c =? rbrace then
        match t1 with
        | c1 :: t2 =>
            if c1 =? rbrace then emit rbrace (format_from kwargs t2 None)
            else Some (Raised (ValueError
                   (u "Single '}' encountered in format string")))
        | [] => Some (Raised (ValueError
                  (u "Single '}' encountered in format string")))
        end
      else emit c (format_from kwargs t1 None)
  | Some name, [] =>
      Some (Raised (ValueError (u "expected '}' before end of string")))
  | Some name, c :: t1 =>
      if c =? rbrace
      then replace_field kwargs name (format_from kwargs t1 None)
      else if field_special c then None
      else format_from kwargs t1 (Some (name ++ [c]))
  end.

Definition format (template : pystr) (kwargs : gmap pystr pystr)
  : option (result pystr) :=
  format_from kwargs template None.

(** ** The translation table *)

(** The values stored in the table are texts and, under [examples], a list
    of one-element lists of texts. *)
#[warning="-register-all"]
Inductive pyval : Type :=
| VStr (s : pystr)
| VList (l : list pyval).

Definition ja_entries : list (pystr * pyval) :=
  [ (u "title", VStr (u "🤖 OpenManus - AIエージェントシステム"));
    (u "description", VStr (u "
OpenManusは、複数のツールを使用してさまざまなタスクを解決できる多機能AIエージェントです。
以下にリクエストを入力して、OpenManusに処理を任せましょう！

**機能:**
- 🌐 Webブラウジングと検索
- 💻 コード実行と分析
- 📝 ファイル操作
- 🔧 マルチツール統合
        "));
    (u "config_title", VStr (u "⚙️ 設定"));
    (u "config_content", VStr (u "
**現在の設定:**
- モデル: `{model}`
- ワークスペース: `{workspace}`
- 最大ステップ数: `20`

設定を変更するには、`config/config.toml`を編集してください
        "));
    (u "chat_label", VStr (u "チャット履歴"));
    (u "input_label", VStr (u "メッセージ"));
    (u "input_placeholder", VStr (u "ここにリクエストを入力してください... (例: '最新のAIニュースを検索して')"));
    (u "send_button", VStr (u "送信 🚀"));
    (u "clear_button", VStr (u "履歴をクリア 🗑️"));
    (u "examples_label", VStr (u "💡 サンプルプロンプト"));
    (u "examples",
      VList
      [ VList [VStr (u "AIエージェントに関する最新ニュースを検索して")];
        VList [VStr (u "フィボナッチ数を生成するPythonスクリプトを作成して")];
        VList [VStr (u "workspace/example.txtのデータを分析して")];
        VList [VStr (u "https://github.com/FoundationAgents/OpenManus を閲覧してプロジェクトを要約して")];
        VList [VStr (u "簡単な電卓をPythonで書いてworkspace/calculator.pyに保存して")] ]);
    (u "footer", VStr (u "
---
**注意:** OpenManusは複雑なリクエストの処理に時間がかかる場合があります。
お待ちいただき、同時に複数のリクエストを送信しないでください。

[GitHub](https://github.com/FoundationAgents/OpenManus) |
[ドキュメント](https://github.com/FoundationAgents/OpenManus/blob/main/README_ja.md)
        "));
    (u "processing", VStr (u "🤔 リクエストを処理中..."));
    (u "completed", VStr (u "✅ タスク完了！

{result}"));
    (u "completed_simple", VStr (u "✅ タスクが正常に完了しました！"));
    (u "error", VStr (u "❌ エラー: {error}"));
    (u "already_processing", VStr (u "⚠️ 既にリクエストを処理中です。お待ちください..."));
    (u "language_label", VStr (u "言語 / Language")) ].

Definition en_entries : list (pystr * pyval) :=
  [ (u "title", VStr (u "🤖 OpenManus - AI Agent System"));
    (u "description", VStr (u "
OpenManus is a versatile AI agent that can solve various tasks using multiple tools.
Enter your request below and let OpenManus handle it for you!

**Features:**
- 🌐 Web browsing and searching
- 💻 Code execution and analysis
- 📝 File operations
- 🔧 Multi-tool integration
        "));
    (u "config_title", VStr (u "⚙️ Configuration"));
    (u "config_content", VStr (u "
**Current Settings:**
- Model: `{model}`
- Workspace: `{workspace}`
- Max Steps: `20`

To change settings, edit `config/config.toml`
        "));
    (u "chat_label", VStr (u "Chat History"));
    (u "input_label", VStr (u "Your Message"));
    (u "input_placeholder", VStr (u "Enter your request here... (e.g., 'Search for the latest AI news')"));
    (u "send_button", VStr (u "Send 🚀"));
    (u "clear_button", VStr (u "Clear History 🗑️"));
    (u "examples_label", VStr (u "💡 Example Prompts"));
    (u "examples",
      VList
      [ VList [VStr (u "Search for the latest news about AI agents")];
        VList [VStr (u "Create a Python script that generates Fibonacci numbers")];
        VList [VStr (u "Analyze the data in workspace/example.txt")];
        VList [VStr (u "Browse https://github.com/FoundationAgents/OpenManus and summarize the project")];
        VList [VStr (u "Write a simple calculator in Python and save it to workspace/calculator.py")] ]);
    (u "footer", VStr (u "
---
**Note:** OpenManus may take some time to process complex requests.
Please be patient and avoid sending multiple requests simultaneously.

[GitHub](https://github.com/FoundationAgents/OpenManus) |
[Documentation](https://github.com/FoundationAgents/OpenManus/blob/main/README.md)
        "));
    (u "processing", VStr (u "🤔 Processing your request..."));
    (u "completed", VStr (u "✅ Task completed!

{result}"));
    (u "completed_simple", VStr (u "✅ Task completed successfully!"));
    (u "error", VStr (u "❌ Error: {error}"));
    (u "already_processing", VStr (u "⚠️ Already processing a request. Please wait..."));
    (u "language_label", VStr (u "Language / 言語")) ].

Definition ja_table : gmap pystr pyval := list_to_map ja_entries.
Definition en_table : gmap pystr pyval := list_to_map en_entries.

Definition TRANSLATIONS : gmap pystr (gmap pystr pyval) :=
  <[u "ja" := ja_table]> (<[u "en" := en_table]> ∅).

(** [WebUI.get_text]: [TRANSLATIONS[self.language].get(key, key)], then
    [text.format] when keyword arguments were given. A list has
    no [format] method. *)
Definition get_text (language key : pystr) (kwargs : gmap pystr pystr)
  : option (result pyval) :=
  match TRANSLATIONS !! language with
  | None => Some (Raised (KeyError language))
  | Some table =>
      let text := default (VStr key) (table !! key) in
      if decide (kwargs = ∅) then Some (Ok text)
      else match text with
           | VStr template =>
               match format template kwargs with
               | Some (Ok s) => Some (Ok (VStr s))
               | Some (Raised e) => Some (Raised e)
               | None => None
               end
           | VList _ =>
               Some (Raised (AttributeError
                 (u "'list' object has no attribute 'format'")))
           end
  end.


(** ** The controller and the objects it works on *)

(** A handle on the external agent. *)
Record Manus : Type := { manus_id : nat }.

(** One turn of the conversation: the user's text and the response. *)
Definition turn : Type := pystr * pyval.

(** Python lists are objects: the history a caller passes in is the list
    the controller appends to and yields. *)
Definition loc := positive.

Record WebUI : Type := mkWebUI {
  agent : option Manus;
  chat_history : list turn;
  is_processing : bool;
  language : pystr
}.

(** [WebUI.__init__] *)
Definition WebUI_init (language : pystr) : WebUI :=
  {| agent := None; chat_history := []; is_processing := false;
     language := language |}.

Record state : Type := mkState {
  self : WebUI;
  heap : gmap loc (list turn)
}.

Definition with_agent (a : option Manus) (s : state) : state :=
  {| self := {| agent := a; chat_history := chat_history (self s);
                is_processing := is_processing (self s);
                language := language (self s) |};
     heap := heap s |}.

Definition with_processing (b : bool) (s : state) : state :=
  {| self := {| agent := agent (self s);
                chat_history := chat_history (self s);
                is_processing := b;
                language := language (self s) |};
     heap := heap s |}.

Definition with_language (l : pystr) (s : state) : state :=
  {| self := {| agent := agent (self s);
                chat_history := chat_history (self s);
                is_processing := is_processing (self s);
                language := l |};
     heap := heap s |}.

Definition with_heap (h : gmap loc (list turn)) (s : state) : state :=
  {| self := self s; heap := h |}.

(** The part of [app.config.config] the interface reads: the model of the
    default LLM settings, when there are any, and the workspace root as
    [str] prints it. *)
Record Config : Type := {
  llm_default_model : option pystr;
  workspace_root : pystr
}.

(** ** Effects *)

Inductive level : Type := INFO | ERROR.

(** What a method does to the controller, to list objects, to its
    collaborators and to its consumer.  Each list operation is one step,
    as it is for the interpreter. *)
Inductive eff : Type -> Type :=
| GetAgent : eff (option Manus)
| SetAgent (a : option Manus) : eff unit
| GetProcessing : eff bool
| SetProcessing (b : bool) : eff unit
| GetLanguage : eff pystr
| SetLanguage (l : pystr) : eff unit
| ReadConfig : eff Config
| ListRead (l : loc) : eff (list turn)
| ListConcat (l : loc) (ts : list turn) : eff loc
| ListAppend (l : loc) (t : turn) : eff unit
| ListSetLast (l : loc) (t : turn) : eff (result unit)
| ManusCreate : eff (result Manus)
| ManusRun (a : Manus) (request : pystr) : eff (result pystr)
| ManusCleanup (a : Manus) : eff (result unit)
| Yield (l : loc) (echo : pystr) : eff unit
| Log (lv : level) (msg : pystr) : eff unit.

(** Programs: a tree of effects. [Unmodelled] marks a point where the
    program leaves the modelled fragment of the library functions. *)
Inductive prog (A : Type) : Type :=
| Ret (a : A)
| Vis {T : Type} (e : eff T) (k : T -> prog A)
| Unmodelled.
Arguments Ret {A} a.
Arguments Vis {A T} e k.
Arguments Unmodelled {A}.

Fixpoint pbind {A B} (p : prog A) (f : A -> prog B) : prog B :=
  match p with
  | Ret a => f a
  | Vis e k => Vis e (fun r => pbind (k r) f)
  | Unmodelled => Unmodelled
  end.

(** A method body either returns or raises. *)
Definition M (A : Type) : Type := prog (result A).

Definition ret {A} (a : A) : M A := Ret (Ok a).
Definition raise {A} (e : exn) : M A := Ret (Raised e).

Definition bind {A B} (m : M A) (f : A -> M B) : M B :=
  pbind m (fun r => match r with Ok a => f a | Raised e => Ret (Raised e) end).

Notation "x <<- m ;; k" := (bind m (fun x => k))
  (at level 100, m at next level, right associativity).
Notation "m ;;; k" := (bind m (fun _ => k))
  (at level 100, right associativity).

(** [try: body except Exception as e: handler e] *)
Definition try_except {A} (body : M A) (handler : exn -> M A) : M A :=
  pbind body (fun r =>
    match r with
    | Ok a => Ret (Ok a)
    | Raised e => if is_Exception e then handler e else Ret (Raised e)
    end).

(** [try: body finally: cleanup]: the clean-up runs on every exit of the
    body, and an exception of the clean-up replaces the body's result. *)
Definition try_finally {A} (body : M A) (cleanup : M unit) : M A :=
  pbind body (fun r =>
    pbind cleanup (fun c =>
      match c with
      | Ok _ => Ret r
      | Raised e => Ret (Raised e)
      end)).

Definition perform {T} (e : eff T) : M T := Vis e (fun r => Ret (Ok r)).
Definition perform_raising {T} (e : eff (result T)) : M T := Vis e Ret.
Definition lift {A} (o : option (result A)) : M A :=
  match o with Some r => Ret r | None => Unmodelled end.

(** ** The methods of [WebUI] *)

(** [self.get_text]: the lookup in the language the controller holds at
    that moment. *)
Definition self_get_text (key : pystr) (kwargs : gmap pystr pystr)
  : M pyval :=
  lang <<- perform GetLanguage ;;
  lift (get_text lang key kwargs).

(** [WebUI.initialize_agent] *)
Definition initialize_agent : M unit :=
  a <<- perform GetAgent ;;
  match a with
  | None =>
      perform (Log INFO (u "Initializing Manus agent...")) ;;;
      h <<- perform_raising ManusCreate ;;
      perform (SetAgent (Some h)) ;;;
      perform (Log INFO (u "Manus agent initialized successfully"))
  | Some _ => ret tt
  end.

(** [await self.agent.run(message)] *)
Definition agent_run (message : pystr) : M pystr :=
  a <<- perform GetAgent ;;
  match a with
  | Some h => perform_raising (ManusRun h message)
  | None =>
      raise (AttributeError (u "'NoneType' object has no attribute 'run'"))
  end.

(** [history and history[-1][0] == message] *)
Definition last_user_is (h : list turn) (message : pystr) : bool :=
  match last h with
  | Some t => bool_decide (fst t = message)
  | None => false
  end.

(** [WebUI.process_message]. Every emission carries the empty echo. *)
Definition process_message (message : pystr) (history : loc) : M unit :=
  if negb (truthy (strip message)) then
    perform (Yield history [])
  else
    busy <<- perform GetProcessing ;;
    if busy then
      notice <<- self_get_text (u "already_processing") ∅ ;;
      extended <<- perform (ListConcat history [(message, notice)]) ;;
      perform (Yield extended [])
    else
      try_finally
        (try_except
           (perform (SetProcessing true) ;;;
            initialize_agent ;;;
            notice <<- self_get_text (u "processing") ∅ ;;
            perform (ListAppend history (message, notice)) ;;;
            perform (Yield history []) ;;;
            perform (Log INFO (u "Processing request: " ++ message)) ;;;
            answer <<- agent_run message ;;
            response <<- (if truthy answer
                          then self_get_text (u "completed")
                                 {[ u "result" := answer ]}
                          else self_get_text (u "completed_simple") ∅) ;;
            perform_raising (ListSetLast history (message, response)))
           (fun e =>
              text <<- lift (option_map Ok (str_exn e)) ;;
              error_msg <<- self_get_text (u "error")
                              {[ u "error" := text ]} ;;
              perform (Log ERROR
                         (u "Error processing message: " ++ text)) ;;;
              h <<- perform (ListRead history) ;;
              if last_user_is h message
              then perform_raising (ListSetLast history (message, error_msg))
              else perform (ListAppend history (message, error_msg))))
        (perform (SetProcessing false)) ;;;
      perform (Yield history []).

(** [WebUI.cleanup] *)
Definition cleanup : M unit :=
  a <<- perform GetAgent ;;
  match a with
  | Some _ =>
      current <<- perform GetAgent ;;
      match current with
      | Some h => perform_raising (ManusCleanup h)
      | None =>
          raise (AttributeError
                   (u "'NoneType' object has no attribute 'cleanup'"))
      end ;;;
      perform (SetAgent None)
  | None => ret tt
  end.

(** ** The interface *)

(** The components [create_gradio_interface] builds, in creation order. *)
Inductive component : Type :=
| language_selector | header_md | title_md | config_accordion | config_md
| chatbot | msg | submit_btn | clear_btn | examples_label
| examples_component | footer_md.

Global Instance component_eq_dec : EqDecision component.
Proof. solve_decision. Defined.

(** The text attributes a component was built with, or those a
    [gr.update] names: [value], [label], [placeholder], [examples]. *)
Record attrs : Type := mkAttrs {
  attr_value : option pyval;
  attr_label : option pyval;
  attr_placeholder : option pyval;
  attr_examples : option pyval
}.

Definition no_attrs : attrs :=
  {| attr_value := None; attr_label := None; attr_placeholder := None;
     attr_examples := None |}.
Definition set_value (v : pyval) (a : attrs) : attrs :=
  {| attr_value := Some v; attr_label := attr_label a;
     attr_placeholder := attr_placeholder a;
     attr_examples := attr_examples a |}.
Definition set_label (v : pyval) (a : attrs) : attrs :=
  {| attr_value := attr_value a; attr_label := Some v;
     attr_placeholder := attr_placeholder a;
     attr_examples := attr_examples a |}.
Definition set_placeholder (v : pyval) (a : attrs) : attrs :=
  {| attr_value := attr_value a; attr_label := attr_label a;
     attr_placeholder := Some v;
     attr_examples := attr_examples a |}.
Definition set_examples (v : pyval) (a : attrs) : attrs :=
  {| attr_value := attr_value a; attr_label := attr_label a;
     attr_placeholder := attr_placeholder a;
     attr_examples := Some v |}.

(** [f"{prefix}{v}"] for a text [v]; printing a list is not modelled. *)
Definition fstring (prefix : pystr) (v : pyval) : M pyval :=
  match v with
  | VStr s => ret (VStr (prefix ++ s))
  | VList _ => Unmodelled
  end.

(** [config.llm.get('default').model if config.llm.get('default') else
    'Not configured'] *)
Definition read_model_name : M pystr :=
  cfg <<- perform ReadConfig ;;
  ret (default (u "Not configured") (llm_default_model cfg)).

(** [webui.get_text("config_content", model=model_name,
    workspace=str(config.workspace_root))] *)
Definition config_text (model_name : pystr) : M pyval :=
  cfg <<- perform ReadConfig ;;
  self_get_text (u "config_content")
    (<[u "model" := model_name]> {[ u "workspace" := workspace_root cfg ]}).

(** The text attributes of the components as [create_gradio_interface]
    builds them. *)
Definition create_gradio_interface : M (list (component * attrs)) :=
  language_label <<- self_get_text (u "language_label") ∅ ;;
  description <<- self_get_text (u "description") ∅ ;;
  title <<- self_get_text (u "title") ∅ ;;
  heading <<- fstring (u "# ") title ;;
  config_title <<- self_get_text (u "config_title") ∅ ;;
  model_name <<- read_model_name ;;
  config_content <<- config_text model_name ;;
  chat_label <<- self_get_text (u "chat_label") ∅ ;;
  input_label <<- self_get_text (u "input_label") ∅ ;;
  input_placeholder <<- self_get_text (u "input_placeholder") ∅ ;;
  send_button <<- self_get_text (u "send_button") ∅ ;;
  clear_button <<- self_get_text (u "clear_button") ∅ ;;
  examples_caption <<- self_get_text (u "examples_label") ∅ ;;
  examples_heading <<- fstring (u "### ") examples_caption ;;
  examples <<- self_get_text (u "examples") ∅ ;;
  footer <<- self_get_text (u "footer") ∅ ;;
  ret [ (language_selector,
          set_value (VStr (u "ja")) (set_label language_label no_attrs));
        (header_md, set_value description no_attrs);
        (title_md, set_value heading no_attrs);
        (config_accordion, set_label config_title no_attrs);
        (config_md, set_value config_content no_attrs);
        (chatbot, set_label chat_label no_attrs);
        (msg, set_label input_label
                (set_placeholder input_placeholder no_attrs));
        (submit_btn, set_value send_button no_attrs);
        (clear_btn, set_value clear_button no_attrs);
        (examples_label, set_value examples_heading no_attrs);
        (examples_component, set_examples examples no_attrs);
        (footer_md, set_value footer no_attrs) ].

(** [change_language], with each [gr.update] next to the output component
    the [language_selector.change] wiring sends it to. *)
Definition change_language (lang : pystr) : M (list (component * attrs)) :=
  perform (SetLanguage lang) ;;;
  model_name <<- read_model_name ;;
  title <<- self_get_text (u "title") ∅ ;;
  heading <<- fstring (u "# ") title ;;
  description <<- self_get_text (u "description") ∅ ;;
  config_title <<- self_get_text (u "config_title") ∅ ;;
  config_content <<- config_text model_name ;;
  chat_label <<- self_get_text (u "chat_label") ∅ ;;
  input_label <<- self_get_text (u "input_label") ∅ ;;
  input_placeholder <<- self_get_text (u "input_placeholder") ∅ ;;
  send_button <<- self_get_text (u "send_button") ∅ ;;
  clear_button <<- self_get_text (u "clear_button") ∅ ;;
  examples_caption <<- self_get_text (u "examples_label") ∅ ;;
  examples_heading <<- fstring (u "### ") examples_caption ;;
  footer <<- self_get_text (u "footer") ∅ ;;
  ret [ (title_md, set_value heading no_attrs);
        (header_md, set_value description no_attrs);
        (config_accordion, set_label config_title no_attrs);
        (config_md, set_value config_content no_attrs);
        (chatbot, set_label chat_label no_attrs);
        (msg, set_label input_label
                (set_placeholder input_placeholder no_attrs));
        (submit_btn, set_value send_button no_attrs);
        (clear_btn, set_value clear_button no_attrs);
        (examples_label, set_value examples_heading no_attrs);
        (footer_md, set_value footer no_attrs) ].

(** What the page shows after a batch of updates: an update replaces the
    attributes it names on its component and leaves the others. *)
Definition merge_attrs (changed shown : attrs) : attrs :=
  {| attr_value := attr_value changed ∪ attr_value shown;
     attr_label := attr_label changed ∪ attr_label shown;
     attr_placeholder := attr_placeholder changed ∪ attr_placeholder shown;
     attr_examples := attr_examples changed ∪ attr_examples shown |}.

Definition apply_update (updates : list (component * attrs))
    (shown : component * attrs) : component * attrs :=
  match list_find (fun cu => fst cu = fst shown) updates with
  | Some (_, (_, changed)) => (fst shown, merge_attrs changed (snd shown))
  | None => shown
  end.

Definition apply_updates (updates page : list (component * attrs))
  : list (component * attrs) :=
  map (apply_update updates) page.

(** ** Running a program *)

(** The collaborators as one call sees them: what [Manus.create()] does,
    what [run] does on a given handle and request, what the agent's own
    [cleanup] does, and the configuration. *)
Record world : Type := mkWorld {
  create_result : result Manus;
  run_result : Manus -> pystr -> result pystr;
  cleanup_result : Manus -> result unit;
  config : Config
}.

(** One entry per effect performed, with what it returned. An emission
    records the list object that was yielded and its content at that
    moment. *)
Inductive event : Type :=
| EvGetAgent (a : option Manus)
| EvSetAgent (a : option Manus)
| EvGetProcessing (b : bool)
| EvSetProcessing (b : bool)
| EvGetLanguage (l : pystr)
| EvSetLanguage (l : pystr)
| EvReadConfig (c : Config)
| EvListRead (l : loc) (v : list turn)
| EvListConcat (l : loc) (ts : list turn) (fresh_list : loc)
| EvListAppend (l : loc) (t : turn)
| EvListSetLast (l : loc) (t : turn) (r : result unit)
| EvCreate (r : result Manus)
| EvRun (a : Manus) (request : pystr) (r : result pystr)
| EvCleanup (a : Manus) (r : result unit)
| EvYield (l : loc) (content : list turn) (echo : pystr)
| EvLog (lv : level) (line : pystr).

(** [lst[-1] = t] on the content [v] of a list object. *)
Definition set_last (v : list turn) (t : turn) : result (list turn) :=
  match v with
  | [] => Raised (IndexError (u "list assignment index out of range"))
  | _ :: _ => Ok (<[Nat.pred (length v) := t]> v)
  end.

(** The effect of one step.  [None]: the step refers to a list object that
    does not exist, which no well-formed call does. *)
Definition handle (w : world) {T} (e : eff T) (s : state)
  : option (T * state * event) :=
  match e in eff T return option (T * state * event) with
  | GetAgent => Some (agent (self s), s, EvGetAgent (agent (self s)))
  | SetAgent a => Some (tt, with_agent a s, EvSetAgent a)
  | GetProcessing =>
      Some (is_processing (self s), s, EvGetProcessing (is_processing (self s)))
  | SetProcessing b => Some (tt, with_processing b s, EvSetProcessing b)
  | GetLanguage =>
      Some (language (self s), s, EvGetLanguage (language (self s)))
  | SetLanguage l => Some (tt, with_language l s, EvSetLanguage l)
  | ReadConfig => Some (config w, s, EvReadConfig (config w))
  | ListRead l =>
      v ← heap s !! l; Some (v, s, EvListRead l v)
  | ListConcat l ts =>
      v ← heap s !! l;
      let l' := fresh (dom (heap s)) in
      Some (l', with_heap (<[l' := v ++ ts]> (heap s)) s, EvListConcat l ts l')
  | ListAppend l t =>
      v ← heap s !! l;
      Some (tt, with_heap (<[l := v ++ [t]]> (heap s)) s, EvListAppend l t)
  | ListSetLast l t =>
      v ← heap s !! l;
      match set_last v t with
      | Ok v' =>
          Some (Ok tt, with_heap (<[l := v']> (heap s)) s,
                EvListSetLast l t (Ok tt))
      | Raised e => Some (Raised e, s, EvListSetLast l t (Raised e))
      end
  | ManusCreate => Some (create_result w, s, EvCreate (create_result w))
  | ManusRun a m => Some (run_result w a m, s, EvRun a m (run_result w a m))
  | ManusCleanup a =>
      Some (cleanup_result w a, s, EvCleanup a (cleanup_result w a))
  | Yield l echo =>
      v ← heap s !! l; Some (tt, s, EvYield l v echo)
  | Log lv line => Some (tt, s, EvLog lv line)
  end.

(** What a complete run leaves behind. [value] is [None] when the run
    stopped outside the model. *)
Record outcome (A : Type) : Type := mkOutcome {
  trace : list event;
  final : state;
  value : option A
}.
Arguments mkOutcome {A} trace final value.
Arguments trace {A} o.
Arguments final {A} o.
Arguments value {A} o.

Definition after {A} (ev : event) (o : outcome A) : outcome A :=
  {| trace := ev :: trace o; final := final o; value := value o |}.

Fixpoint exec {A} (w : world) (p : prog A) (s : state) : outcome A :=
  match p with
  | Ret a => {| trace := []; final := s; value := Some a |}
  | Unmodelled => {| trace := []; final := s; value := None |}
  | Vis e k =>
      match handle w e s with
      | Some (r, s', ev) => after ev (exec w (k r) s')
      | None => {| trace := []; final := s; value := None |}
      end
  end.

(** The emissions of a run, in order. *)
Definition is_yield (ev : event) : bool :=
  match ev with EvYield _ _ _ => true | _ => false end.
Definition emissions (tr : list event) : list event := filter is_yield tr.

Definition is_create (ev : event) : bool :=
  match ev with EvCreate _ => true | _ => false end.
Definition is_run (ev : event) : bool :=
  match ev with EvRun _ _ _ => true | _ => false end.


(** ** Vocabulary of the properties *)

Definition supported (lang : pystr) : Prop := lang = u "ja" \/ lang = u "en".

(** The fixed notices of [process_message], as the table gives them. *)
Definition busy_notice (lang : pystr) : pyval :=
  default (VStr (u "already_processing"))
    (default ∅ (TRANSLATIONS !! lang) !! u "already_processing").
Definition processing_notice (lang : pystr) : pyval :=
  default (VStr (u "processing"))
    (default ∅ (TRANSLATIONS !! lang) !! u "processing").
Definition success_notice (lang : pystr) : pyval :=
  default (VStr (u "completed_simple"))
    (default ∅ (TRANSLATIONS !! lang) !! u "completed_simple").

(** The text before the substituted value in the [completed] and [error]
    templates. *)
Definition completed_prefix (lang : pystr) : pystr :=
  if decide (lang = u "ja") then u "✅ タスク完了！" ++ [10; 10]
  else u "✅ Task completed!" ++ [10; 10].
Definition error_prefix (lang : pystr) : pystr :=
  if decide (lang = u "ja") then u "❌ エラー: " else u "❌ Error: ".

(** The response written over the placeholder when [run] returned. *)
Definition completion (lang answer : pystr) : pyval :=
  if truthy answer then VStr (completed_prefix lang ++ answer)
  else success_notice lang.

(** The response written when an exception with text [text] was caught. *)
Definition error_notice (lang text : pystr) : pyval :=
  VStr (error_prefix lang ++ text).

(** The history after the handler recorded [reply] for the message [X]. *)
Definition recorded (h : list turn) (X : pystr) (reply : turn) : list turn :=
  if last_user_is h X then <[Nat.pred (length h) := reply]> h
  else h ++ [reply].

(** The handle [initialize_agent] leaves in [self.agent], or the exception
    of the factory. *)
Definition obtained (w : world) (s : state) : result Manus :=
  match agent (self s) with
  | Some a => Ok a
  | None => create_result w
  end.

(** The controller after a call that went through the [try] statement. *)
Definition settled (a : option Manus) (s : state) (hp : gmap loc (list turn))
  : state :=
  {| self := {| agent := a; chat_history := chat_history (self s);
                is_processing := false; language := language (self s) |};
     heap := hp |}.

(** What a call on an idle controller does up to the point where it is
    about to invoke [run] on the handle [a]. *)
Definition opening (w : world) (s : state) (X : pystr) (history : loc)
    (h : list turn) (a : Manus) : list event :=
  [EvGetProcessing false; EvSetProcessing true]
  ++ trace (exec w initialize_agent (with_processing true s))
  ++ [EvGetLanguage (language (self s));
      EvListAppend history (X, processing_notice (language (self s)));
      EvYield history (h ++ [(X, processing_notice (language (self s)))]) [];
      EvLog INFO (u "Processing request: " ++ X);
      EvGetAgent (Some a)].

(** ** Several calls on one controller *)

(** The presentation layer starts a call for every submit event and for
    every change of the language selector, and the entry point calls
    [cleanup] on its way out, so calls can overlap.  A call
    in flight is the rest of its program; the scheduler may run one step
    of any call in flight at any time, which covers suspension at [await]
    and [yield] as well as preemption between two steps. *)
Record system : Type := mkSystem {
  controller : state;
  in_flight : list (M unit)
}.

Inductive sys_step : system -> system -> Prop :=
| step_request σ calls v :
    (* a request arrives with its own history list *)
    let l := fresh (dom (heap σ)) in
    sys_step {| controller := σ; in_flight := calls |}
             {| controller := with_heap (<[l := v]> (heap σ)) σ;
                in_flight := calls |}
| step_submit σ calls X history :
    sys_step {| controller := σ; in_flight := calls |}
             {| controller := σ;
                in_flight := calls ++ [process_message X history] |}
| step_language σ calls lang :
    (* the language selector changes *)
    sys_step {| controller := σ; in_flight := calls |}
             {| controller := σ;
                in_flight := calls ++ [change_language lang ;;; ret tt] |}
| step_cleanup σ calls :
    (* shutdown *)
    sys_step {| controller := σ; in_flight := calls |}
             {| controller := σ; in_flight := calls ++ [cleanup] |}
| step_run σ σ' w T (e : eff T) k r ev before later :
    handle w e σ = Some (r, σ', ev) ->
    sys_step {| controller := σ; in_flight := before ++ Vis e k :: later |}
             {| controller := σ'; in_flight := before ++ k r :: later |}
| step_finish σ r before later :
    sys_step {| controller := σ; in_flight := before ++ Ret r :: later |}
             {| controller := σ; in_flight := before ++ later |}.

Inductive reachable : system -> Prop :=
| reachable_init lang hp :
    reachable {| controller := {| self := WebUI_init lang; heap := hp |};
                 in_flight := [] |}
| reachable_step Σ Σ' :
    reachable Σ -> sys_step Σ Σ' -> reachable Σ'.

(** The value an effect writes to [is_processing], if it writes it. *)
Definition sets_flag {T} (e : eff T) : option bool :=
  match e with
  | SetProcessing b => Some b
  | _ => None
  end.

(** A program that never leaves the flag set behind: [releases p] says
    that [p] clears the flag before it ends, and [balanced p] that every
    [is_processing = True] of [p] is followed by such a clearing. *)
Inductive balanced {A} : prog A -> Prop :=
| balanced_ret a : balanced (Ret a)
| balanced_unmodelled : balanced Unmodelled
| balanced_vis T (e : eff T) k :
    sets_flag e = None -> (forall r, balanced (k r)) -> balanced (Vis e k)
| balanced_set T (e : eff T) k :
    sets_flag e = Some true -> (forall r, releases (k r)) ->
    balanced (Vis e k)
| balanced_clear T (e : eff T) k :
    sets_flag e = Some false -> (forall r, balanced (k r)) ->
    balanced (Vis e k)
with releases {A} : prog A -> Prop :=
| releases_unmodelled : releases Unmodelled
| releases_vis T (e : eff T) k :
    sets_flag e <> Some false -> (forall r, releases (k r)) ->
    releases (Vis e k)
| releases_clear T (e : eff T) k :
    sets_flag e = Some false -> (forall r, balanced (k r)) ->
    releases (Vis e k).

(** What the two predicates say about the rest of a program after its
    first step. *)
Definition balanced_next {A} (p : prog A) : Prop :=
  match p with
  | Vis e k =>
      match sets_flag e with
      | Some true => forall r, releases (k r)
      | _ => forall r, balanced (k r)
      end
  | _ => True
  end.

Definition releases_next {A} (p : prog A) : Prop :=
  match p with
  | Vis e k =>
      match sets_flag e with
      | Some false => forall r, balanced (k r)
      | _ => forall r, releases (k r)
      end
  | Ret _ => False
  | Unmodelled => True
  end.

(** [avoids bad p]: the program [p] never performs an effect that [bad]
    selects. *)
Inductive avoids {A} (bad : forall T, eff T -> bool) : prog A -> Prop :=
| avoids_Ret a : avoids bad (Ret a)
| avoids_Unmodelled : avoids bad Unmodelled
| avoids_Vis T (e : eff T) k :
    bad T e = false -> (forall r, avoids bad (k r)) -> avoids bad (Vis e k).

Definition writes_flag T (e : eff T) : bool :=
  match sets_flag e with Some _ => true | None => false end.
Definition calls_run T (e : eff T) : bool :=
  match e with ManusRun _ _ => true | _ => false end.
Definition calls_create T (e : eff T) : bool :=
  match e with ManusCreate => true | _ => false end.

(** [quiet p]: the program [p] never writes [is_processing]. *)
Abbreviation quiet := (avoids writes_flag).

(** The invariant of the scheduler: every call in flight follows the flag
    discipline, and a set flag is owed by a call in flight. *)
Definition flag_owned (Σ : system) : Prop :=
  Forall (fun p => balanced p \/ releases p) (in_flight Σ)
  /\ (is_processing (self (controller Σ)) = true ->
      Exists releases (in_flight Σ)).

(** ** Vocabulary of the statements *)


(** The user field of the last turn, if there is one. *)
Definition last_user (h : list turn) : option pystr := fst <$> last h.

Definition is_list_write (ev : event) : bool :=
  match ev with
  | EvListAppend _ _ | EvListSetLast _ _ _ => true
  | _ => false
  end.



(** ** A sample session *)

Definition manus0 : Manus := {| manus_id := 0 |}.

Definition sample_config : Config :=
  {| llm_default_model := Some (u "gpt-4o");
     workspace_root := u "/workspace" |}.

(** A world whose factory succeeds and whose [run] does [answer]. *)
Definition sample_world (answer : result pystr) : world :=
  {| create_result := Ok manus0;
     run_result := fun _ _ => answer;
     cleanup_result := fun _ => Ok tt;
     config := sample_config |}.

(** A world whose factory raises. *)
Definition broken_world : world :=
  {| create_result := Raised (OtherException (u "boom"));
     run_result := fun _ _ => Ok (u "world");
     cleanup_result := fun _ => Ok tt;
     config := sample_config |}.

(** A new Japanese session and one list object holding the history [h]. *)
Definition session (h : list turn) : state :=
  {| self := WebUI_init (u "ja"); heap := {[ 1%positive := h ]} |}.

(** The position of the first event of a kind in a trace. *)
Definition position (P : event -> bool) (tr : list event) : option nat :=
  fst <$> list_find (fun ev => P ev = true) tr.

(** ** Further vocabulary *)

Definition writes_agent T (e : eff T) : bool :=
  match e with SetAgent _ => true | _ => false end.

Definition is_set_agent (ev : event) : bool :=
  match ev with EvSetAgent _ => true | _ => false end.

(** ** The wrapper of the submit events *)

(** What [process_message] yields: the history list and the echo. *)
Definition item : Type := loc * pystr.

(** The item an effect yields, with the answer the generator gets when it
    is resumed. *)
Definition yielded {T} (e : eff T) : option (T * item) :=
  match e in eff T return option (T * item) with
  | Yield l echo => Some (tt, (l, echo))
  | _ => None
  end.

(** [async for item in async_gen: results.append(item)]: the generator is
    run to its end and every item it yields is put at the end of
    [results] instead of being handed to a consumer. *)
Fixpoint drain {A} (async_gen : prog A) (results : list item)
  : prog (A * list item) :=
  match async_gen with
  | Ret a => Ret (a, results)
  | Unmodelled => Unmodelled
  | Vis e k =>
      match yielded e with
      | Some (r, it) => drain (k r) (results ++ [it])
      | None => Vis e (fun r => drain (k r) results)
      end
  end.

(** [async_to_sync_generator]: the list of the items, or the exception
    the generator raised. *)
Definition async_to_sync_generator (async_gen : M unit) : M (list item) :=
  pbind (drain async_gen [])
    (fun x => match fst x with
              | Ok _ => Ret (Ok (snd x))
              | Raised e => Ret (Raised e)
              end).

(** [for result in results: yield result] *)
Fixpoint yield_each (results : list item) : M unit :=
  match results with
  | [] => ret tt
  | (l, echo) :: rest => perform (Yield l echo) ;;; yield_each rest
  end.

(** [respond]. The event loop that [respond] creates to drive the
    coroutine, and closes in its [finally] clause, acts on neither the
    controller nor the lists and is not represented. *)
Definition respond (message : pystr) (chat_history : loc) : M unit :=
  results <<- async_to_sync_generator (process_message message chat_history) ;;
  yield_each results.

(** The items of the emissions of a trace. *)
Definition items_of (tr : list event) : list item :=
  omap (fun ev => match ev with
                  | EvYield l _ echo => Some (l, echo)
                  | _ => None
                  end) tr.

(** The emission of an item when the lists are as in [hp]. *)
Definition shown (hp : gmap loc (list turn)) (it : item) : option event :=
  v ← hp !! it.1; Some (EvYield it.1 v it.2).

Definition not_yield (ev : event) : bool := negb (is_yield ev).

(** ** The language switch *)

(** The [outputs] of the [language_selector.change] wiring. *)
Definition language_outputs : list component :=
  [title_md; header_md; config_accordion; config_md; chatbot; msg;
   submit_btn; clear_btn; examples_label; footer_md].

(** The events of the steps that read the configuration or read or write
    [self.language]. *)
Definition is_language_or_config (ev : event) : bool :=
  match ev with
  | EvGetLanguage _ | EvSetLanguage _ | EvReadConfig _ => true
  | _ => false
  end.

(** A component of the page as it is shown after a switch, next to the
    same component of a page built in the new language: an output of the
    wiring shows what the new page would, any other component differs
    from it when the language has changed. *)
Definition follows_switch (changed : bool) (shown built : component * attrs)
  : Prop :=
  fst shown = fst built
  /\ if bool_decide (fst shown ∈ language_outputs)
     then snd shown = snd built
     else changed = true -> snd shown <> snd built.

(** ** The history across a call *)

(** What a call for the message [X] may make of a history [h]: leave it,
    put one turn of [X] at its end, or write a turn of [X] over its last
    turn when that is a turn of [X] already. *)
Definition extends (X : pystr) (h h' : list turn) : Prop :=
  h' = h
  \/ (exists r, h' = h ++ [(X, r)])
  \/ (exists r, last_user_is h X = true
                /\ h' = <[Nat.pred (length h) := (X, r)]> h).

(** ** Two calls that overlap *)

(** One schedule of a call [p] and a call [q] that arrives while [p] is
    in flight: [p] runs its first [n] steps, then [q] runs from its start
    to its end, then [p] runs what is left of it. The outcome is the one
    of [p]; the trace holds the steps of both calls in the order they
    were made. When [p] has fewer than [n] steps, [q] runs after it. *)
Fixpoint exec_overlap {A B} (w : world) (n : nat) (p : prog A) (q : prog B)
    (s : state) : outcome A :=
  match n, p with
  | S n', Vis e k =>
      match handle w e s with
      | Some (r, s', ev) => after ev (exec_overlap w n' (k r) q s')
      | None => {| trace := []; final := s; value := None |}
      end
  | _, _ =>
      let oq := exec w q s in
      let op := exec w p (final oq) in
      {| trace := trace oq ++ trace op; final := final op; value := value op |}
  end.
Example get_text_title_en :
  get_text (u "en") (u "title") ∅
  = Some (Ok (VStr (u "🤖 OpenManus - AI Agent System"))).
Proof. vm_compute. reflexivity. Qed.

Example get_text_error_ja m :
  get_text (u "ja") (u "error") {[ u "error" := m ]}
  = Some (Ok (VStr (u "❌ エラー: " ++ m))).
Proof. vm_compute. repeat f_equal. apply app_nil_r. Qed.

Example strip_ex : strip (u "　 x y ") = u "x y".
Proof. vm_compute. reflexivity. Qed.

(** * Properties *)

(** ** Text *)

Lemma lstrip_nil_iff s : lstrip s = [] <-> forallb isspace s = true.
Proof.
  induction s as [|c s IH]; simpl; [done|].
  destruct (isspace c); simpl; [exact IH|]. split; discriminate.
Qed.

Lemma lstrip_head s c t : lstrip s = c :: t -> isspace c = false.
Proof.
  induction s as [|d s IH]; simpl; [done|].
  destruct (isspace d) eqn:Ed; [exact IH|]. congruence.
Qed.

(** [not message.strip()] holds exactly for the texts made of whitespace
    only, the empty text among them. *)
Lemma strip_blank_iff s : truthy (strip s) = false <-> forallb isspace s = true.
Proof.
  rewrite <- lstrip_nil_iff. unfold strip, rstrip.
  destruct (lstrip s) as [|c t] eqn:E; [done|].
  split; [|done]. intros H.
  assert (Hrev : lstrip (rev (c :: t)) = []).
  { destruct (lstrip (rev (c :: t))) as [|d r] eqn:Er; [done|].
    simpl in H. destruct (rev r); discriminate. }
  apply lstrip_nil_iff in Hrev. rewrite forallb_forall in Hrev.
  assert (Hc : isspace c = true).
  { apply Hrev. rewrite <- in_rev. by left. }
  apply lstrip_head in E. congruence.
Qed.

(** ** The translation table *)

Opaque ja_entries en_entries.

Lemma TRANSLATIONS_lookup lang :
  TRANSLATIONS !! lang =
    if decide (lang = u "ja") then Some ja_table
    else if decide (lang = u "en") then Some en_table else None.
Proof.
  unfold TRANSLATIONS.
  rewrite lookup_insert. destruct (decide (u "ja" = lang)) as [<-|Hja].
  - rewrite decide_True; done.
  - rewrite decide_False by congruence.
    rewrite lookup_insert. destruct (decide (u "en" = lang)) as [<-|Hen].
    + rewrite decide_True; done.
    + rewrite decide_False by congruence. apply lookup_empty.
Qed.

Lemma supported_lookup lang :
  supported lang <-> is_Some (TRANSLATIONS !! lang).
Proof.
  rewrite TRANSLATIONS_lookup. unfold supported.
  destruct (decide (lang = u "ja")) as [Hja|Hja];
    [split; [eauto | by left]|].
  destruct (decide (lang = u "en")) as [Hen|Hen];
    [split; [eauto | by right]|].
  split; [tauto|]. intros [? Hx]. discriminate.
Qed.

Lemma get_text_unsupported lang key kwargs :
  ~ supported lang ->
  get_text lang key kwargs = Some (Raised (KeyError lang)).
Proof.
  intros H. unfold get_text.
  destruct (TRANSLATIONS !! lang) eqn:E; [|done].
  exfalso. apply H, supported_lookup. eauto.
Qed.

Ltac by_language H :=
  destruct H as [-> | ->]; vm_compute; try reflexivity.

Lemma get_text_plain lang key :
  supported lang ->
  get_text lang key ∅
  = Some (Ok (default (VStr key) (default ∅ (TRANSLATIONS !! lang) !! key))).
Proof.
  intros H. unfold get_text.
  apply supported_lookup in H as [t ->]. simpl.
  by rewrite decide_True.
Qed.

Lemma get_text_busy lang :
  supported lang ->
  get_text lang (u "already_processing") ∅ = Some (Ok (busy_notice lang)).
Proof. apply get_text_plain. Qed.

Lemma get_text_processing lang :
  supported lang ->
  get_text lang (u "processing") ∅ = Some (Ok (processing_notice lang)).
Proof. apply get_text_plain. Qed.

Lemma get_text_success lang :
  supported lang ->
  get_text lang (u "completed_simple") ∅ = Some (Ok (success_notice lang)).
Proof. apply get_text_plain. Qed.

Lemma get_text_completed lang answer :
  supported lang ->
  get_text lang (u "completed") {[ u "result" := answer ]}
  = Some (Ok (VStr (completed_prefix lang ++ answer))).
Proof.
  intros H. by_language H; repeat f_equal; apply app_nil_r.
Qed.

Lemma get_text_error lang text :
  supported lang ->
  get_text lang (u "error") {[ u "error" := text ]}
  = Some (Ok (VStr (error_prefix lang ++ text))).
Proof.
  intros H. by_language H; repeat f_equal; apply app_nil_r.
Qed.

(** ** Running the methods *)

Arguments get_text : simpl never.
Arguments u : simpl never.
Arguments strip : simpl never.
Arguments str_exn : simpl never.

Lemma set_last_snoc (v : list turn) (t t' : turn) :
  set_last (v ++ [t]) t' = Ok (v ++ [t']).
Proof.
  unfold set_last. destruct (v ++ [t]) as [|x r] eqn:E.
  { by destruct v. }
  rewrite <- E. f_equal.
  rewrite length_app. simpl.
  replace (Nat.pred (length v + 1)) with (length v + 0)%nat by lia.
  by rewrite insert_app_r.
Qed.

Lemma set_last_recorded (v : list turn) (X : pystr) (t : turn) :
  last_user_is v X = true ->
  set_last v t = Ok (<[Nat.pred (length v) := t]> v).
Proof. destruct v; [discriminate | done]. Qed.

Lemma last_user_is_snoc (v : list turn) (X : pystr) (r : pyval) :
  last_user_is (v ++ [(X, r)]) X = true.
Proof.
  unfold last_user_is. rewrite last_snoc. simpl.
  by rewrite bool_decide_eq_true.
Qed.

Ltac run_with tac :=
  repeat (cbn -[fresh]; tac;
          rewrite ?lookup_insert_eq, ?set_last_snoc, ?last_user_is_snoc,
                  ?insert_insert_eq).

Lemma exec_initialize_agent w s :
  exec w initialize_agent s =
    match agent (self s) with
    | Some a =>
        {| trace := [EvGetAgent (Some a)]; final := s; value := Some (Ok tt) |}
    | None =>
        match create_result w with
        | Ok a =>
            {| trace := [EvGetAgent None;
                         EvLog INFO (u "Initializing Manus agent...");
                         EvCreate (Ok a); EvSetAgent (Some a);
                         EvLog INFO (u "Manus agent initialized successfully")];
               final := with_agent (Some a) s;
               value := Some (Ok tt) |}
        | Raised e =>
            {| trace := [EvGetAgent None;
                         EvLog INFO (u "Initializing Manus agent...");
                         EvCreate (Raised e)];
               final := s;
               value := Some (Raised e) |}
        end
    end.
Proof.
  unfold initialize_agent. cbn.
  destruct (agent (self s)); [done|]. cbn.
  by destruct (create_result w).
Qed.

Section Paths.
Variables (w : world) (s : state) (X : pystr) (history : loc).
Variable h : list turn.
Hypothesis history_is_list : heap s !! history = Some h.

(** Empty or blank text: one emission, nothing else. *)
Lemma process_message_blank :
  truthy (strip X) = false ->
  exec w (process_message X history) s =
    {| trace := [EvYield history h []]; final := s; value := Some (Ok tt) |}.
Proof using history_is_list.
  intros HX. unfold process_message. rewrite HX. cbn.
  by rewrite history_is_list.
Qed.

Hypothesis not_blank : truthy (strip X) = true.
Hypothesis language_supported : supported (language (self s)).

(** A call that finds the flag set. *)
Lemma process_message_busy :
  is_processing (self s) = true ->
  let extended := fresh (dom (heap s)) in
  let reply := (X, busy_notice (language (self s))) in
  exec w (process_message X history) s =
    {| trace := [EvGetProcessing true; EvGetLanguage (language (self s));
                 EvListConcat history [reply] extended;
                 EvYield extended (h ++ [reply]) []];
       final := with_heap (<[extended := h ++ [reply]]> (heap s)) s;
       value := Some (Ok tt) |}.
Proof using history_is_list not_blank language_supported.
  intros Hbusy. unfold process_message. rewrite not_blank. cbn -[fresh].
  rewrite Hbusy. cbn -[fresh].
  rewrite get_text_busy by assumption. cbn -[fresh].
  rewrite history_is_list. cbn -[fresh].
  by rewrite lookup_insert_eq.
Qed.

Hypothesis idle : is_processing (self s) = false.

Ltac enter :=
  destruct s as [[ag c b lg] hp]; simpl in *; subst b;
  unfold process_message, obtained in *; rewrite not_blank.

Ltac go :=
  run_with ltac:(rewrite ?history_is_list, ?get_text_processing,
                   ?get_text_completed, ?get_text_success, ?get_text_error
                   by assumption).

Section Ready.
Variable a : Manus.
Hypothesis ready : obtained w s = Ok a.

(** [run] returns. *)
Lemma process_message_done answer :
  run_result w a X = Ok answer ->
  let reply := (X, completion (language (self s)) answer) in
  exec w (process_message X history) s =
    {| trace := opening w s X history h a
                ++ [EvRun a X (Ok answer); EvGetLanguage (language (self s));
                    EvListSetLast history reply (Ok tt);
                    EvSetProcessing false;
                    EvYield history (h ++ [reply]) []];
       final := settled (Some a) s (<[history := h ++ [reply]]> (heap s));
       value := Some (Ok tt) |}.
Proof using All.
  intros HR. unfold opening, completion, settled. enter.
  destruct ag as [a'|]; simpl in ready;
    [injection ready as ->|];
    go; rewrite ?ready; go; rewrite ?HR; go; destruct (truthy answer); go;
    reflexivity.
Qed.

(** [run] raises an exception that [except Exception] catches. *)
Lemma process_message_failed e text :
  run_result w a X = Raised e ->
  is_Exception e = true ->
  str_exn e = Some text ->
  let reply := (X, error_notice (language (self s)) text) in
  exec w (process_message X history) s =
    {| trace := opening w s X history h a
                ++ [EvRun a X (Raised e); EvGetLanguage (language (self s));
                    EvLog ERROR (u "Error processing message: " ++ text);
                    EvListRead history
                      (h ++ [(X, processing_notice (language (self s)))]);
                    EvListSetLast history reply (Ok tt);
                    EvSetProcessing false;
                    EvYield history (h ++ [reply]) []];
       final := settled (Some a) s (<[history := h ++ [reply]]> (heap s));
       value := Some (Ok tt) |}.
Proof using All.
  intros HR He Htext. unfold opening, error_notice, settled. enter.
  destruct ag as [a'|]; simpl in ready;
    [injection ready as ->|];
    go; rewrite ?ready; go; rewrite ?HR; go; rewrite He, Htext; go;
    reflexivity.
Qed.

(** [run] raises something that is not an [Exception]: only the
    [finally] clause runs and the exception leaves the call. *)
Lemma process_message_interrupted e :
  run_result w a X = Raised e ->
  is_Exception e = false ->
  exec w (process_message X history) s =
    {| trace := opening w s X history h a
                ++ [EvRun a X (Raised e); EvSetProcessing false];
       final := settled (Some a) s
                  (<[history :=
                       h ++ [(X, processing_notice (language (self s)))]]>
                     (heap s));
       value := Some (Raised e) |}.
Proof using All.
  intros HR He. unfold opening, settled. enter.
  destruct ag as [a'|]; simpl in ready;
    [injection ready as ->|];
    go; rewrite ?ready; go; rewrite ?HR; go; rewrite He; go;
    reflexivity.
Qed.
End Ready.

(** The factory raises an exception that [except Exception] catches:
    no placeholder was appended, and the handler looks at the history as
    the caller passed it. *)
Lemma process_message_init_failed e text :
  obtained w s = Raised e ->
  is_Exception e = true ->
  str_exn e = Some text ->
  let reply := (X, error_notice (language (self s)) text) in
  exec w (process_message X history) s =
    {| trace := [EvGetProcessing false; EvSetProcessing true;
                 EvGetAgent None;
                 EvLog INFO (u "Initializing Manus agent...");
                 EvCreate (Raised e);
                 EvGetLanguage (language (self s));
                 EvLog ERROR (u "Error processing message: " ++ text);
                 EvListRead history h;
                 (if last_user_is h X
                  then EvListSetLast history reply (Ok tt)
                  else EvListAppend history reply);
                 EvSetProcessing false;
                 EvYield history (recorded h X reply) []];
       final := settled None s (<[history := recorded h X reply]> (heap s));
       value := Some (Ok tt) |}.
Proof using All.
  intros Hinit He Htext. unfold error_notice, settled, recorded. enter.
  destruct ag as [a'|]; simpl in Hinit; [discriminate|].
  go. rewrite Hinit. go. rewrite He, Htext. go.
  destruct (last_user_is h X) eqn:Hlast; go.
  - rewrite (set_last_recorded _ X) by assumption. go. reflexivity.
  - reflexivity.
Qed.

(** The factory raises something that is not an [Exception]. *)
Lemma process_message_init_interrupted e :
  obtained w s = Raised e ->
  is_Exception e = false ->
  exec w (process_message X history) s =
    {| trace := [EvGetProcessing false; EvSetProcessing true;
                 EvGetAgent None;
                 EvLog INFO (u "Initializing Manus agent...");
                 EvCreate (Raised e);
                 EvSetProcessing false];
       final := settled None s (heap s);
       value := Some (Raised e) |}.
Proof using All.
  intros Hinit He. unfold settled. enter.
  destruct ag as [a'|]; simpl in Hinit; [discriminate|].
  go. rewrite Hinit. go. rewrite He. go. reflexivity.
Qed.
End Paths.

(** ** The flag discipline *)

Scheme balanced_mut := Minimality for balanced Sort Prop
  with releases_mut := Minimality for releases Sort Prop.

Lemma handle_flag w T (e : eff T) σ r σ' ev :
  handle w e σ = Some (r, σ', ev) ->
  is_processing (self σ') = default (is_processing (self σ)) (sets_flag e).
Proof.
  destruct e; simpl; intros H;
    repeat match goal with
           | H : (_ ≫= _) = Some _ |- _ =>
               apply bind_Some in H as (? & ? & H)
           | H : match ?x with _ => _ end = Some _ |- _ => destruct x
           end;
    by simplify_eq.
Qed.

Lemma quiet_balanced {A} (p : prog A) : quiet p -> balanced p.
Proof.
  induction 1 as [| |T e k He _ IH]; [constructor..|].
  apply balanced_vis; [|done].
  unfold writes_flag in He. by destruct (sets_flag e).
Qed.

Lemma releases_pbind {A B} (p : prog A) (f : A -> prog B) :
  quiet p -> (forall a, releases (f a)) -> releases (pbind p f).
Proof.
  induction 1 as [| |T e k He _ IH]; intros Hf; simpl; [done|constructor|].
  apply releases_vis; [|auto].
  unfold writes_flag in He. by destruct (sets_flag e).
Qed.

Lemma balanced_pbind {A B} (p : prog A) (f : A -> prog B) :
  balanced p -> (forall a, balanced (f a)) -> balanced (pbind p f).
Proof.
  intros Hp Hf. revert p Hp.
  apply (balanced_mut A (fun p => balanced (pbind p f))
                        (fun p => releases (pbind p f)));
    simpl; intros; try done.
  - constructor.
  - by apply balanced_vis.
  - by apply balanced_set.
  - by apply balanced_clear.
  - constructor.
  - by apply releases_vis.
  - by apply releases_clear.
Qed.

Lemma releases_pbind_balanced {A B} (p : prog A) (f : A -> prog B) :
  releases p -> (forall a, balanced (f a)) -> releases (pbind p f).
Proof.
  intros Hp Hf. revert p Hp.
  apply (releases_mut A (fun p => balanced (pbind p f))
                        (fun p => releases (pbind p f)));
    simpl; intros; try done.
  - constructor.
  - by apply balanced_vis.
  - by apply balanced_set.
  - by apply balanced_clear.
  - constructor.
  - by apply releases_vis.
  - by apply releases_clear.
Qed.

(** *** Programs that avoid an effect *)

Section Avoids.
Variable bad : forall T, eff T -> bool.

Lemma avoids_pbind {A B} (p : prog A) (f : A -> prog B) :
  avoids bad p -> (forall a, avoids bad (f a)) -> avoids bad (pbind p f).
Proof.
  induction 1; intros Hf; simpl; [done|constructor|]. constructor; auto.
Qed.

Lemma avoids_bind {A B} (m : M A) (f : A -> M B) :
  avoids bad m -> (forall a, avoids bad (f a)) -> avoids bad (bind m f).
Proof.
  intros Hm Hf. apply avoids_pbind; [done|]. intros [a|e]; [done|constructor].
Qed.

Lemma avoids_try_except {A} (body : M A) handler :
  avoids bad body -> (forall e, avoids bad (handler e)) ->
  avoids bad (try_except body handler).
Proof.
  intros Hb Hh. apply avoids_pbind; [done|].
  intros [a|e]; [constructor|]. destruct (is_Exception e); [done|constructor].
Qed.

Lemma avoids_try_finally {A} (body : M A) cleanup :
  avoids bad body -> avoids bad cleanup ->
  avoids bad (try_finally body cleanup).
Proof.
  intros Hb Hc. apply avoids_pbind; [done|]. intros r.
  apply avoids_pbind; [done|]. intros [?|?]; constructor.
Qed.

Lemma avoids_perform {T} (e : eff T) :
  bad T e = false -> avoids bad (perform e).
Proof. intros He. apply avoids_Vis; [done|]. constructor. Qed.

Lemma avoids_perform_raising {T} (e : eff (result T)) :
  bad _ e = false -> avoids bad (perform_raising e).
Proof. intros He. apply avoids_Vis; [done|]. constructor. Qed.

Lemma avoids_lift {A} (o : option (result A)) : avoids bad (lift o).
Proof. destruct o; constructor. Qed.

Lemma avoids_ret {A} (a : A) : avoids bad (ret a).
Proof. constructor. Qed.

Lemma avoids_raise {A} (e : exn) : avoids bad (@raise A e).
Proof. constructor. Qed.
End Avoids.

Create HintDb avoids.
#[local] Hint Resolve avoids_lift avoids_ret avoids_raise avoids_Ret
  avoids_Unmodelled : avoids.
#[local] Hint Extern 1 (avoids _ (bind _ _)) =>
  apply avoids_bind; [|intros] : avoids.
#[local] Hint Extern 1 (avoids _ (try_except _ _)) =>
  apply avoids_try_except; [|intros] : avoids.
#[local] Hint Extern 1 (avoids _ (try_finally _ _)) =>
  apply avoids_try_finally : avoids.
#[local] Hint Extern 1 (avoids _ (perform _)) =>
  apply avoids_perform; reflexivity : avoids.
#[local] Hint Extern 1 (avoids _ (perform_raising _)) =>
  apply avoids_perform_raising; reflexivity : avoids.
#[local] Hint Extern 2 (avoids _ (match ?x with _ => _ end)) =>
  destruct x : avoids.

Lemma avoids_self_get_text (bad : forall T, eff T -> bool) key kwargs :
  bad _ GetLanguage = false -> avoids bad (self_get_text key kwargs).
Proof. intros H. unfold self_get_text. apply avoids_bind.
  - by apply avoids_perform.
  - intros. apply avoids_lift.
Qed.
#[local] Hint Extern 1 (avoids _ (self_get_text _ _)) =>
  apply avoids_self_get_text; reflexivity : avoids.

Lemma quiet_initialize_agent : quiet initialize_agent.
Proof. unfold initialize_agent. auto 10 with avoids. Qed.

Lemma runless_initialize_agent : avoids calls_run initialize_agent.
Proof. unfold initialize_agent. auto 10 with avoids. Qed.

Lemma quiet_agent_run X : quiet (agent_run X).
Proof. unfold agent_run. auto with avoids. Qed.

Lemma factoryless_agent_run X : avoids calls_create (agent_run X).
Proof. unfold agent_run. auto with avoids. Qed.
#[local] Hint Resolve quiet_initialize_agent quiet_agent_run
  runless_initialize_agent factoryless_agent_run : avoids.

Lemma process_message_quiet_blank X history :
  truthy (strip X) = false -> quiet (process_message X history).
Proof.
  intros H. unfold process_message. rewrite H. simpl. auto with avoids.
Qed.

Lemma process_message_balanced X history :
  balanced (process_message X history).
Proof.
  unfold process_message.
  destruct (truthy (strip X)); simpl negb; cbv iota;
    [|apply quiet_balanced; auto with avoids].
  unfold bind at 1. cbn [pbind perform].
  apply balanced_vis; [done|]. intros [|].
  { apply quiet_balanced. auto 10 with avoids. }
  unfold bind at 1, try_finally, try_except.
  unfold bind at 1. cbn [pbind perform].
  apply balanced_set; [done|]. intros [].
  apply releases_pbind_balanced.
  - apply releases_pbind.
    + apply avoids_pbind.
      * auto 20 with avoids.
      * intros [a|e]; [constructor|].
        destruct (is_Exception e); [|constructor]. auto 20 with avoids.
    + intros r. cbn [pbind perform].
      apply releases_clear; [done|]. intros []. cbn [pbind].
      destruct r; constructor.
  - intros [a|e]; [|constructor]. apply quiet_balanced. auto with avoids.
Qed.

(** *** One call run to its end *)

Lemma exec_quiet {A} w (p : prog A) :
  quiet p ->
  forall s, is_processing (self (final (exec w p s))) = is_processing (self s).
Proof.
  induction 1 as [| |T e k He _ IH]; intros s; simpl; try done.
  destruct (handle w e s) as [[[r s'] ev]|] eqn:Hh; [|done].
  simpl. rewrite IH. apply handle_flag in Hh. rewrite Hh.
  unfold writes_flag in He. by destruct (sets_flag e).
Qed.

Ltac flag_step IH :=
  match goal with
  | Hv : is_Some (value match handle ?w ?e ?s with _ => _ end) |- _ =>
      let r := fresh "r" in
      let s' := fresh "s'" in
      let ev := fresh "ev" in
      let Hh := fresh "Hh" in
      destruct (handle w e s) as [[[r s'] ev]|] eqn:Hh; simpl in *;
      [ apply handle_flag in Hh; specialize (IH r s' Hv);
        destruct (sets_flag e) as [[|]|]; simpl in *;
        intuition congruence
      | by destruct Hv ]
  end.

Lemma exec_discipline {A} w :
  (forall p : prog A, balanced p ->
     forall s, is_Some (value (exec w p s)) ->
       is_processing (self (final (exec w p s))) = false
       \/ is_processing (self (final (exec w p s))) = is_processing (self s))
  /\ (forall p : prog A, releases p ->
     forall s, is_Some (value (exec w p s)) ->
       is_processing (self (final (exec w p s))) = false).
Proof.
  pose (P := fun p : prog A =>
     forall s, is_Some (value (exec w p s)) ->
       is_processing (self (final (exec w p s))) = false
       \/ is_processing (self (final (exec w p s))) = is_processing (self s)).
  pose (Q := fun p : prog A =>
     forall s, is_Some (value (exec w p s)) ->
       is_processing (self (final (exec w p s))) = false).
  assert (HP : forall p, balanced p -> P p).
  { apply (balanced_mut A P Q); subst P Q; simpl;
      try (intros; by auto);
      try (intros s [? Hv]; discriminate);
      intros T e k He Hk IH s Hv; flag_step IH. }
  assert (HQ : forall p, releases p -> Q p).
  { apply (releases_mut A P Q); subst P Q; simpl;
      try (intros; by auto);
      try (intros s [? Hv]; discriminate);
      intros T e k He Hk IH s Hv; flag_step IH. }
  split; assumption.
Qed.

(** *** Overlapping calls *)

Lemma balanced_inv {A} (p : prog A) : balanced p -> balanced_next p.
Proof. destruct 1; simpl; try done; by rewrite H. Qed.

Lemma releases_inv {A} (p : prog A) : releases p -> releases_next p.
Proof.
  destruct 1 as [|T e k He Hk|T e k He Hk]; simpl; try done.
  - by destruct (sets_flag e) as [[|]|].
  - by rewrite He.
Qed.

Lemma quiet_change_language lang : quiet (change_language lang ;;; ret tt).
Proof.
  unfold change_language, read_model_name, config_text, fstring.
  auto 100 with avoids.
Qed.

Lemma quiet_cleanup : quiet cleanup.
Proof. unfold cleanup. auto 20 with avoids. Qed.

Lemma flag_owned_step Σ Σ' : flag_owned Σ -> sys_step Σ Σ' -> flag_owned Σ'.
Proof.
  intros [Hall Hown] Hstep.
  destruct Hstep as [σ calls v|σ calls X history|σ calls lang|σ calls
                    |σ σ' w T e k r ev before later Hh
                    |σ r before later]; simpl in *.
  - by split.
  - split.
    + apply Forall_app. split; [done|].
      constructor; [|constructor]. left. apply process_message_balanced.
    + intros Hf. apply Exists_app. left. auto.
  - split.
    + apply Forall_app. split; [done|].
      constructor; [|constructor]. left.
      apply quiet_balanced, quiet_change_language.
    + intros Hf. apply Exists_app. left. auto.
  - split.
    + apply Forall_app. split; [done|].
      constructor; [|constructor]. left.
      apply quiet_balanced, quiet_cleanup.
    + intros Hf. apply Exists_app. left. auto.
  - apply Forall_app in Hall as [Hbefore Hrest].
    apply Forall_cons in Hrest as [Hp Hlater].
    pose proof (handle_flag _ _ _ _ _ _ _ Hh) as Hflag.
    assert (Hnext : (balanced (k r) \/ releases (k r))
                    /\ (releases (Vis e k) -> sets_flag e <> Some false ->
                        releases (k r))
                    /\ (sets_flag e = Some true -> releases (k r))).
    { split; [|split].
      - destruct Hp as [Hp|Hp].
        + apply balanced_inv in Hp. simpl in Hp.
          destruct (sets_flag e) as [[|]|]; auto.
        + apply releases_inv in Hp. simpl in Hp.
          destruct (sets_flag e) as [[|]|]; auto.
      - intros Hr Hne. apply releases_inv in Hr. simpl in Hr.
        destruct (sets_flag e) as [[|]|]; auto. congruence.
      - intros He. destruct Hp as [Hp|Hp].
        + apply balanced_inv in Hp. simpl in Hp. rewrite He in Hp. auto.
        + apply releases_inv in Hp. simpl in Hp. rewrite He in Hp. auto. }
    destruct Hnext as (Hkr & Hkeep & Hset).
    split.
    + apply Forall_app. split; [done|]. by constructor.
    + simpl. intros Hf. rewrite Hflag in Hf.
      destruct (sets_flag e) as [[|]|] eqn:He; simpl in Hf; [|done|].
      * apply Exists_app. right. left. auto.
      * apply Hown in Hf. apply Exists_app in Hf as [Hf|Hf];
          [apply Exists_app; by left|].
        apply Exists_cons in Hf as [Hf|Hf].
        -- apply Exists_app. right. left. apply Hkeep; [done|congruence].
        -- apply Exists_app. right. by right.
  - apply Forall_app in Hall as [Hbefore Hrest].
    apply Forall_cons in Hrest as [Hp Hlater].
    split; [by apply Forall_app|].
    simpl. intros Hf. apply Hown in Hf.
    apply Exists_app in Hf as [Hf|Hf]; [apply Exists_app; by left|].
    apply Exists_cons in Hf as [Hf|Hf];
      [by apply releases_inv in Hf|].
    apply Exists_app. by right.
Qed.

Lemma reachable_flag_owned Σ : reachable Σ -> flag_owned Σ.
Proof.
  induction 1 as [lang hp|Σ Σ' _ IH Hstep].
  - split; [constructor|]. simpl. discriminate.
  - by eapply flag_owned_step.
Qed.

(** *** Traces of composed programs *)

Lemma exec_pbind {A B} w (p : prog A) (f : A -> prog B) s :
  exec w (pbind p f) s =
    match value (exec w p s) with
    | Some a =>
        {| trace := trace (exec w p s)
                    ++ trace (exec w (f a) (final (exec w p s)));
           final := final (exec w (f a) (final (exec w p s)));
           value := value (exec w (f a) (final (exec w p s))) |}
    | None =>
        {| trace := trace (exec w p s); final := final (exec w p s);
           value := None |}
    end.
Proof.
  revert s. induction p as [a|T e k IH|]; intros s; simpl.
  - by destruct (exec w (f a) s).
  - destruct (handle w e s) as [[[r s'] ev]|]; [|done].
    rewrite IH. simpl. by destruct (value (exec w (k r) s')).
  - done.
Qed.

Lemma In_trace_pbind {A B} w (p : prog A) (f : A -> prog B) s ev :
  In ev (trace (exec w (pbind p f) s)) ->
  In ev (trace (exec w p s))
  \/ exists a, value (exec w p s) = Some a
               /\ In ev (trace (exec w (f a) (final (exec w p s)))).
Proof.
  rewrite exec_pbind. destruct (value (exec w p s)) as [a|]; simpl.
  - rewrite in_app_iff. intros [H|H]; [by left|right; eauto].
  - by left.
Qed.

Lemma handle_calls w T (e : eff T) s r s' ev :
  handle w e s = Some (r, s', ev) ->
  is_run ev = calls_run T e /\ is_create ev = calls_create T e.
Proof.
  destruct e; simpl; intros H;
    repeat match goal with
           | H : (_ ≫= _) = Some _ |- _ =>
               apply bind_Some in H as (? & ? & H)
           | H : match ?x with _ => _ end = Some _ |- _ => destruct x
           end;
    by simplify_eq.
Qed.

Lemma exec_runless {A} w (p : prog A) s ev :
  avoids calls_run p -> In ev (trace (exec w p s)) -> is_run ev = false.
Proof.
  intros Hp. revert s.
  induction Hp as [| |T e k He _ IH]; intros s; simpl; try done.
  destruct (handle w e s) as [[[r s'] ev']|] eqn:Hh; [|done].
  simpl. intros [<-|H]; [|by eapply IH].
  apply handle_calls in Hh as [-> _]. done.
Qed.

Lemma exec_factoryless {A} w (p : prog A) s ev :
  avoids calls_create p -> In ev (trace (exec w p s)) -> is_create ev = false.
Proof.
  intros Hp. revert s.
  induction Hp as [| |T e k He _ IH]; intros s; simpl; try done.
  destruct (handle w e s) as [[[r s'] ev']|] eqn:Hh; [|done].
  simpl. intros [<-|H]; [|by eapply IH].
  apply handle_calls in Hh as [_ ->]. done.
Qed.

Lemma supported_dec lang : {supported lang} + {~ supported lang}.
Proof.
  unfold supported.
  destruct (decide (lang = u "ja")); [by left; left|].
  destruct (decide (lang = u "en")); [by left; right|].
  right. tauto.
Qed.

(** [run] is invoked only on the processing path, after the agent was
    obtained and the placeholder was appended, and with the submitted
    message. *)
Lemma run_event_inv w s X history a m r :
  In (EvRun a m r) (trace (exec w (process_message X history) s)) ->
  truthy (strip X) = true
  /\ is_processing (self s) = false
  /\ supported (language (self s))
  /\ is_Some (heap s !! history)
  /\ obtained w s = Ok a
  /\ m = X
  /\ r = run_result w a X.
Proof.
  intros H. unfold process_message in H.
  destruct (truthy (strip X)) eqn:HX; simpl negb in H; cbv iota in H.
  2: { apply exec_runless in H; [discriminate|auto with avoids]. }
  unfold bind at 1 in H. cbn [pbind perform exec handle after trace] in H.
  destruct H as [H|H]; [discriminate|].
  destruct (is_processing (self s)) eqn:Hidle.
  { apply exec_runless in H; [discriminate|auto 10 with avoids]. }
  apply In_trace_pbind in H as [H|(x & _ & H)].
  2: { apply exec_runless in H; [discriminate|].
       destruct x; auto with avoids. }
  apply In_trace_pbind in H as [H|(x & _ & H)].
  2: { apply exec_runless in H; [discriminate|].
       apply avoids_pbind; [auto with avoids|]. intros [|]; constructor. }
  apply In_trace_pbind in H as [H|(x & _ & H)].
  2: { apply exec_runless in H; [discriminate|].
       destruct x as [?|e]; [constructor|].
       destruct (is_Exception e); [|constructor]. auto 20 with avoids. }
  destruct s as [[ag c b lg] hp]. unfold obtained. simpl in *.
  assert (Hstart : exists a',
            match ag with Some a0 => Ok a0 | None => create_result w end
            = Ok a').
  { destruct ag as [a'|]; [eauto|].
    destruct (create_result w) as [a'|e] eqn:Hc; [eauto|].
    exfalso. cbn in H. rewrite Hc in H. cbn in H.
    decompose [or] H; (discriminate || contradiction). }
  destruct Hstart as [a' Ha'].
  destruct (supported_dec lg) as [Hlang|Hlang].
  2: { exfalso. destruct ag as [a0|]; cbn in H; rewrite ?Ha' in H;
         cbn in H; rewrite (get_text_unsupported lg) in H by assumption;
         cbn in H; decompose [or] H; (discriminate || contradiction). }
  destruct (hp !! history) as [h|] eqn:Hh.
  2: { exfalso. destruct ag as [a0|]; cbn in H; rewrite ?Ha' in H;
         cbn in H; rewrite get_text_processing in H by assumption;
         cbn in H; rewrite Hh in H;
         cbn in H; decompose [or] H; (discriminate || contradiction). }
  split; [done|]. split; [done|]. split; [done|]. split; [eauto|].
  assert (Hev : EvRun a m r = EvRun a' X (run_result w a' X)).
  { destruct ag as [a0|]; cbn in H; rewrite ?Ha' in H;
      cbn in H; rewrite get_text_processing in H by assumption;
      cbn in H; rewrite Hh in H; cbn in H;
      rewrite lookup_insert_eq in H; cbn in H;
      try injection Ha' as ->;
      repeat (destruct H as [H|H];
              [try discriminate; try (symmetry; exact H)|]);
      (apply exec_runless in H; [discriminate|]);
      (destruct (run_result w a' X) as [answer|e]; [|constructor]);
      (apply avoids_bind; [|intros; auto with avoids]);
      destruct (truthy answer);
      (apply avoids_Vis; [reflexivity|intros; apply avoids_lift]). }
  injection Hev as -> -> ->. done.
Qed.

(** The factory is invoked only on the processing path, and only while
    the controller holds no agent. *)
Lemma create_event_inv w s X history r :
  In (EvCreate r) (trace (exec w (process_message X history) s)) ->
  truthy (strip X) = true
  /\ is_processing (self s) = false
  /\ agent (self s) = None
  /\ r = create_result w.
Proof.
  intros H. unfold process_message in H.
  destruct (truthy (strip X)) eqn:HX; simpl negb in H; cbv iota in H.
  2: { apply exec_factoryless in H; [discriminate|auto with avoids]. }
  unfold bind at 1 in H. cbn [pbind perform exec handle after trace] in H.
  destruct H as [H|H]; [discriminate|].
  destruct (is_processing (self s)) eqn:Hidle.
  { apply exec_factoryless in H; [discriminate|auto 10 with avoids]. }
  apply In_trace_pbind in H as [H|(x & _ & H)].
  2: { apply exec_factoryless in H; [discriminate|].
       destruct x; auto with avoids. }
  apply In_trace_pbind in H as [H|(x & _ & H)].
  2: { apply exec_factoryless in H; [discriminate|].
       apply avoids_pbind; [auto with avoids|]. intros [|]; constructor. }
  apply In_trace_pbind in H as [H|(x & _ & H)].
  2: { apply exec_factoryless in H; [discriminate|].
       destruct x as [?|e]; [constructor|].
       destruct (is_Exception e); [|constructor]. auto 20 with avoids. }
  unfold bind at 1 in H. cbn [pbind perform exec handle after trace] in H.
  destruct H as [H|H]; [discriminate|].
  apply In_trace_pbind in H as [H|(x & _ & H)].
  2: { apply exec_factoryless in H; [discriminate|].
       destruct x as [?|e]; [|constructor]. auto 20 with avoids. }
  rewrite exec_initialize_agent in H.
  cbn [with_processing self agent] in H.
  destruct (agent (self s)) as [a0|].
  { simpl in H. decompose [or] H; (discriminate || contradiction). }
  do 3 (split; [done|]).
  destruct (create_result w) as [a0|e]; simpl in H;
    decompose [or] H; try (discriminate || contradiction); congruence.
Qed.

(** ** The claims *)

Lemma recorded_last (h : list turn) (X : pystr) (reply : turn) :
  last (recorded h X reply) = Some reply.
Proof.
  unfold recorded. destruct (last_user_is h X) eqn:E; [|apply last_snoc].
  destruct h as [|t h] using rev_ind; [discriminate|].
  rewrite length_app. simpl.
  replace (Nat.pred (length h + 1)) with (length h + 0)%nat by lia.
  rewrite insert_app_r. simpl. apply last_snoc.
Qed.

Lemma last_user_is_spec (h : list turn) (X : pystr) :
  last_user_is h X = true <-> last_user h = Some X.
Proof.
  unfold last_user_is, last_user. destruct (last h) as [[usr r]|]; simpl.
  - rewrite bool_decide_eq_true. split; congruence.
  - split; discriminate.
Qed.

(** C6. Submitting a text that is empty or made of whitespace only
    produces exactly one emission, the history the caller passed with its
    content unchanged; the run performs no other effect, so neither the
    agent nor [is_processing] is read or written, and the state is the
    one the call started in. *)
Theorem blank_message_is_a_no_op w s X history h :
  forallb isspace X = true ->
  heap s !! history = Some h ->
  exec w (process_message X history) s
  = {| trace := [EvYield history h []]; final := s; value := Some (Ok tt) |}.
Proof.
  intros HX Hh. apply process_message_blank; [done|].
  by apply strip_blank_iff.
Qed.

Lemma blank_message_is_a_no_op_witness :
  exec (sample_world (Ok (u "world")))
       (process_message (u "  　") 1%positive)
       (session [(u "hi", VStr (u "there"))])
  = {| trace := [EvYield 1%positive [(u "hi", VStr (u "there"))] []];
       final := session [(u "hi", VStr (u "there"))];
       value := Some (Ok tt) |}.
Proof.
  apply (blank_message_is_a_no_op _ _ (u "  　") 1%positive
           [(u "hi", VStr (u "there"))]).
  - vm_compute. reflexivity.
  - vm_compute. reflexivity.
Defined.

(** C5 as stated fails for a blank message: the empty-input test comes
    first, so a blank text submitted while the flag is set is answered by
    the unchanged history and no busy notice. *)
Lemma busy_blank_message_gets_no_notice :
  let o := exec (sample_world (Ok (u "world")))
             (process_message (u " ") 1%positive)
             (with_processing true (session [])) in
  emissions (trace o) = [EvYield 1%positive [] []]
  /\ ~ (exists l, emissions (trace o)
                  = [EvYield l ([] ++ [(u " ", busy_notice (u "ja"))]) []]).
Proof.
  split; [vm_compute; reflexivity|].
  intros [l H]. vm_compute in H. discriminate.
Qed.

(** C5, amended. For every message that is not blank and every history,
    if [is_processing] is true when the call starts, the call produces
    exactly one emission: a new list holding the input history with one
    turn appended, whose response is the busy notice of the current
    language. The list the caller passed is not changed, the controller
    is left as it was, and neither the factory nor [run] is invoked. *)
Theorem busy_call_is_rejected w s X history h :
  truthy (strip X) = true ->
  supported (language (self s)) ->
  heap s !! history = Some h ->
  is_processing (self s) = true ->
  let o := exec w (process_message X history) s in
  let notice := busy_notice (language (self s)) in
  get_text (language (self s)) (u "already_processing") ∅ = Some (Ok notice)
  /\ (exists extended,
        extended <> history
        /\ emissions (trace o) = [EvYield extended (h ++ [(X, notice)]) []])
  /\ heap (final o) !! history = Some h
  /\ self (final o) = self s
  /\ filter is_create (trace o) = []
  /\ filter is_run (trace o) = []
  /\ value o = Some (Ok tt).
Proof.
  intros HX Hlang Hh Hbusy o notice. subst o.
  rewrite (process_message_busy w s X history h) by assumption.
  split; [by apply get_text_busy|].
  assert (Hfresh : fresh (dom (heap s)) <> history).
  { intros E. apply (is_fresh (dom (heap s))). rewrite E.
    apply elem_of_dom. eauto. }
  split; [by eexists|]. simpl.
  split; [by rewrite lookup_insert_ne|]. done.
Qed.

Lemma busy_call_is_rejected_witness :
  let o := exec (sample_world (Ok (u "world")))
             (process_message (u "hello") 1%positive)
             (with_processing true (session [])) in
  filter is_create (trace o) = [] /\ filter is_run (trace o) = []
  /\ value o = Some (Ok tt).
Proof.
  pose proof (busy_call_is_rejected (sample_world (Ok (u "world")))
                (with_processing true (session []))
                (u "hello") 1%positive []) as H.
  destruct H as (_ & _ & _ & _ & Hc & Hr & Hv).
  - vm_compute. reflexivity.
  - left. reflexivity.
  - vm_compute. reflexivity.
  - reflexivity.
  - exact (conj Hc (conj Hr Hv)).
Defined.






Ltac find_event :=
  vm_compute; repeat first [left; reflexivity | right].

(** C2. If during a call the agent's [run] raises an exception whose text
    is [boom], the call still ends normally (the exception is not
    re-raised), the last turn of the history is the message with the error
    notice of the current language followed by [boom], that is also what
    the final emission shows, and [is_processing] is false. At the moment
    of the failure the last turn of the history is the placeholder for the
    message, so this holds for every history the caller passes. *)
Theorem run_failure_is_recorded w s X history a m e boom :
  let o := exec w (process_message X history) s in
  In (EvRun a m (Raised e)) (trace o) ->
  is_Exception e = true ->
  str_exn e = Some boom ->
  let lang := language (self s) in
  let notice := VStr (error_prefix lang ++ boom) in
  get_text lang (u "error") {[ u "error" := boom ]} = Some (Ok notice)
  /\ value o = Some (Ok tt)
  /\ (exists content,
        heap (final o) !! history = Some content
        /\ last content = Some (X, notice)
        /\ last (emissions (trace o)) = Some (EvYield history content []))
  /\ is_processing (self (final o)) = false.
Proof.
  intros o Hrun He Hboom lang notice. subst o.
  apply run_event_inv in Hrun
    as (HX & Hidle & Hlang & [h Hh] & Ha & -> & HR).
  symmetry in HR.
  rewrite (process_message_failed w s X history h Hh HX Hlang Hidle a Ha
             e boom HR He Hboom).
  split; [by apply get_text_error|]. split; [done|].
  split; [|done].
  exists (h ++ [(X, notice)]). cbn [final settled heap].
  rewrite lookup_insert_eq. split; [done|]. split; [apply last_snoc|].
  unfold opening, emissions. rewrite exec_initialize_agent.
  cbn [with_processing self agent].
  destruct (agent (self s)); [done|]. by destruct (create_result w).
Qed.

Lemma run_failure_is_recorded_witness :
  let o := exec (sample_world (Raised (OtherException (u "boom"))))
             (process_message (u "hello") 1%positive) (session []) in
  value o = Some (Ok tt)
  /\ heap (final o) !! 1%positive
     = Some [(u "hello", VStr (u "❌ エラー: boom"))]
  /\ is_processing (self (final o)) = false.
Proof.
  pose proof (run_failure_is_recorded
                (sample_world (Raised (OtherException (u "boom"))))
                (session []) (u "hello") 1%positive manus0 (u "hello")
                (OtherException (u "boom")) (u "boom")) as H.
  destruct H as (_ & Hv & _ & Hf).
  - find_event.
  - reflexivity.
  - reflexivity.
  - split; [exact Hv|]. split; [vm_compute; reflexivity | exact Hf].
Defined.

(** C4. For every message [X], when the agent's [run] is invoked on it
    and returns a non-empty text [R], the final emission's last turn is the
    message with the completion notice of the current language followed by
    [R]; when [run] returns the empty text it is the message with the
    generic success notice. In both cases the call emits the same list
    object twice, first ending in the placeholder and then with the
    placeholder rewritten: the history has grown by one turn, not two.
    ([run] is only ever invoked on a message that is not blank.) *)
Theorem run_result_replaces_placeholder w s X history a m R :
  let o := exec w (process_message X history) s in
  In (EvRun a m (Ok R)) (trace o) ->
  let lang := language (self s) in
  m = X
  /\ truthy (strip X) = true
  /\ exists h response,
    heap s !! history = Some h
    /\ (truthy R = true ->
        response = VStr (completed_prefix lang ++ R)
        /\ get_text lang (u "completed") {[ u "result" := R ]}
           = Some (Ok response))
    /\ (R = [] ->
        response = success_notice lang
        /\ get_text lang (u "completed_simple") ∅ = Some (Ok response))
    /\ emissions (trace o)
       = [EvYield history (h ++ [(X, processing_notice lang)]) [];
          EvYield history (h ++ [(X, response)]) []]
    /\ heap (final o) !! history = Some (h ++ [(X, response)])
    /\ value o = Some (Ok tt).
Proof.
  intros o Hrun lang. subst o.
  apply run_event_inv in Hrun
    as (HX & Hidle & Hlang & [h Hh] & Ha & -> & HR).
  symmetry in HR.
  rewrite (process_message_done w s X history h Hh HX Hlang Hidle a Ha R HR).
  do 2 (split; [done|]).
  exists h, (completion lang R). unfold completion.
  split; [done|].
  split; [intros ->; split; [done|by apply get_text_completed]|].
  split; [intros ->; split; [done|by apply get_text_success]|].
  cbn [final settled heap trace value]. rewrite lookup_insert_eq.
  split; [|done].
  unfold opening, emissions. rewrite exec_initialize_agent.
  cbn [with_processing self agent].
  destruct (agent (self s)); [done|]. by destruct (create_result w).
Qed.

Lemma run_result_replaces_placeholder_witness :
  exists h response,
    heap (session []) !! 1%positive = Some h
    /\ emissions (trace (exec (sample_world (Ok (u "world")))
                           (process_message (u "hello") 1%positive)
                           (session [])))
       = [EvYield 1%positive (h ++ [(u "hello", processing_notice (u "ja"))])
            [];
          EvYield 1%positive (h ++ [(u "hello", response)]) []].
Proof.
  destruct (run_result_replaces_placeholder (sample_world (Ok (u "world")))
              (session []) (u "hello") 1%positive manus0 (u "hello")
              (u "world"))
    as (_ & _ & h & response & Hh & _ & _ & He & _).
  - find_event.
  - exists h, response. split; [exact Hh | exact He].
Defined.

(** C10. When the factory raises an exception, which happens before the
    placeholder is appended, the handler looks at the history as the
    caller passed it: if its last turn's user field is the submitted
    message, that turn's response is overwritten with the error notice and
    the history keeps its length; otherwise (the history is empty or ends
    with another user text) a new turn with the error notice is appended.
    A turn is appended only in that second case. *)
Theorem init_failure_overwrites_matching_turn w s X history h e text :
  let o := exec w (process_message X history) s in
  In (EvCreate (Raised e)) (trace o) ->
  is_Exception e = true ->
  str_exn e = Some text ->
  supported (language (self s)) ->
  heap s !! history = Some h ->
  let reply := (X, error_notice (language (self s)) text) in
  exists content,
    heap (final o) !! history = Some content
    /\ (last_user h = Some X ->
        content = <[Nat.pred (length h) := reply]> h
        /\ length content = length h
        /\ filter is_list_write (trace o)
           = [EvListSetLast history reply (Ok tt)])
    /\ (last_user h <> Some X ->
        content = h ++ [reply]
        /\ filter is_list_write (trace o) = [EvListAppend history reply])
    /\ (length content = S (length h) ->
        h = [] \/ last_user h <> Some X).
Proof.
  intros o Hcreate He Htext Hlang Hh reply. subst o.
  apply create_event_inv in Hcreate as (HX & Hidle & Hagent & Hcreate).
  assert (Hinit : obtained w s = Raised e).
  { unfold obtained. by rewrite Hagent. }
  rewrite (process_message_init_failed w s X history h Hh HX Hlang Hidle
             e text Hinit He Htext).
  exists (recorded h X reply). cbn [final settled heap trace].
  rewrite lookup_insert_eq. split; [done|].
  unfold recorded. fold reply.
  destruct (last_user_is h X) eqn:Hlast.
  - apply last_user_is_spec in Hlast.
    split; [intros _; split; [done|split; [apply length_insert|done]]|].
    split; [congruence|].
    rewrite length_insert. lia.
  - assert (Hne : last_user h <> Some X).
    { intros Hu. apply last_user_is_spec in Hu. congruence. }
    split; [congruence|]. split; [done|]. by right.
Qed.

Lemma init_failure_overwrites_matching_turn_witness :
  heap (final (exec broken_world (process_message (u "hello") 1%positive)
                 (session [(u "hello", VStr (u "old"))]))) !! 1%positive
  = Some [(u "hello", VStr (u "❌ エラー: boom"))].
Proof.
  destruct (init_failure_overwrites_matching_turn broken_world
              (session [(u "hello", VStr (u "old"))]) (u "hello") 1%positive
              [(u "hello", VStr (u "old"))]
              (OtherException (u "boom")) (u "boom"))
    as (content & Hc & Hover & _).
  - find_event.
  - reflexivity.
  - reflexivity.
  - left. reflexivity.
  - vm_compute. reflexivity.
  - destruct Hover as (-> & _); [vm_compute; reflexivity|].
    etransitivity; [exact Hc|]. vm_compute. reflexivity.
Defined.

Lemma process_message_reaches_factory w s X history :
  truthy (strip X) = true ->
  is_processing (self s) = false ->
  agent (self s) = None ->
  exists rest,
    trace (exec w (process_message X history) s)
    = [EvGetProcessing false; EvSetProcessing true; EvGetAgent None;
       EvLog INFO (u "Initializing Manus agent...");
       EvCreate (create_result w)] ++ rest.
Proof.
  intros HX Hidle Hagent.
  destruct s as [[ag c b lg] hp]; simpl in *; subst.
  unfold process_message. rewrite HX. cbn. eexists. reflexivity.
Qed.

(** C7. If the factory raises an exception during a call, the attempt is
    aborted: [run] is never invoked and the only emission shows the
    history with the error notice as the response of its last turn. The
    agent handle is still unset afterwards, and any later attempt with a
    message that is not blank invokes the factory again. *)
Theorem factory_failure_is_surfaced_and_retried w s X history h e text :
  let o := exec w (process_message X history) s in
  In (EvCreate (Raised e)) (trace o) ->
  is_Exception e = true ->
  str_exn e = Some text ->
  supported (language (self s)) ->
  heap s !! history = Some h ->
  let reply := (X, error_notice (language (self s)) text) in
  filter is_run (trace o) = []
  /\ (exists content,
        emissions (trace o) = [EvYield history content []]
        /\ heap (final o) !! history = Some content
        /\ last content = Some reply)
  /\ value o = Some (Ok tt)
  /\ agent (self (final o)) = None
  /\ is_processing (self (final o)) = false
  /\ (forall w' X' history',
        truthy (strip X') = true ->
        exists before later,
          trace (exec w' (process_message X' history') (final o))
          = before ++ EvCreate (create_result w') :: later).
Proof.
  intros o Hcreate He Htext Hlang Hh reply. subst o.
  apply create_event_inv in Hcreate as (HX & Hidle & Hagent & Hcreate).
  assert (Hinit : obtained w s = Raised e).
  { unfold obtained. by rewrite Hagent. }
  rewrite (process_message_init_failed w s X history h Hh HX Hlang Hidle
             e text Hinit He Htext).
  fold reply. cbn [final settled heap trace value self agent is_processing].
  split; [by destruct (last_user_is h X)|].
  split.
  { exists (recorded h X reply). rewrite lookup_insert_eq.
    split; [by destruct (last_user_is h X)|].
    split; [done|apply recorded_last]. }
  do 3 (split; [done|]).
  intros w' X' history' HX'.
  destruct (process_message_reaches_factory w'
              (settled None s (<[history:=recorded h X reply]> (heap s)))
              X' history' HX' eq_refl eq_refl) as [rest Hrest].
  rewrite Hrest.
  exists [EvGetProcessing false; EvSetProcessing true; EvGetAgent None;
          EvLog INFO (u "Initializing Manus agent...")], rest.
  reflexivity.
Qed.

Lemma factory_failure_is_surfaced_and_retried_witness :
  let o := exec broken_world (process_message (u "hello") 1%positive)
             (session []) in
  agent (self (final o)) = None
  /\ exists before later,
       trace (exec (sample_world (Ok (u "world")))
                (process_message (u "again") 1%positive) (final o))
       = before ++ EvCreate (Ok manus0) :: later.
Proof.
  destruct (factory_failure_is_surfaced_and_retried broken_world (session [])
              (u "hello") 1%positive [] (OtherException (u "boom"))
              (u "boom"))
    as (_ & _ & _ & Hagent & _ & Hretry).
  - find_event.
  - reflexivity.
  - reflexivity.
  - left. reflexivity.
  - vm_compute. reflexivity.
  - split; [exact Hagent|].
    apply (Hretry (sample_world (Ok (u "world"))) (u "again") 1%positive).
    vm_compute. reflexivity.
Defined.

Lemma process_message_opening w s X history h a :
  truthy (strip X) = true ->
  is_processing (self s) = false ->
  supported (language (self s)) ->
  heap s !! history = Some h ->
  obtained w s = Ok a ->
  exists rest,
    trace (exec w (process_message X history) s)
    = opening w s X history h a ++ EvRun a X (run_result w a X) :: rest.
Proof.
  intros HX Hidle Hlang Hh Ha. unfold opening.
  destruct s as [[ag c b lg] hp]; simpl in *; subst b.
  unfold process_message, obtained in *. rewrite HX. simpl in Ha.
  destruct ag as [a'|]; [injection Ha as ->|];
    run_with ltac:(rewrite ?Hh, ?Ha, ?get_text_processing by assumption);
    eexists; reflexivity.
Qed.

(** C1 as stated fails: on a new session the factory is called at
    position 4 of the run, before the placeholder is appended (position 8)
    and emitted (position 9). *)
Lemma factory_is_called_before_the_placeholder :
  let tr := trace (exec (sample_world (Ok (u "world")))
                     (process_message (u "hello") 1%positive)
                     (session [])) in
  position is_create tr = Some 4%nat
  /\ position is_list_write tr = Some 8%nat
  /\ position is_yield tr = Some 9%nat
  /\ ~ (exists i j, position is_yield tr = Some i
                    /\ position is_create tr = Some j /\ (i < j)%nat).
Proof.
  assert (Hc : position is_create
                 (trace (exec (sample_world (Ok (u "world")))
                           (process_message (u "hello") 1%positive)
                           (session []))) = Some 4%nat)
    by (vm_compute; reflexivity).
  assert (Hy : position is_yield
                 (trace (exec (sample_world (Ok (u "world")))
                           (process_message (u "hello") 1%positive)
                           (session []))) = Some 9%nat)
    by (vm_compute; reflexivity).
  cbv zeta. split; [exact Hc|]. split; [vm_compute; reflexivity|].
  split; [exact Hy|].
  intros (i & j & Hi & Hj & Hlt).
  rewrite Hy in Hi. rewrite Hc in Hj.
  injection Hi as <-. injection Hj as <-. lia.
Qed.

(** C1, amended. In the normal processing path (message not blank,
    controller idle) [initialize_agent] runs first, from its first step to
    its return, without emitting anything; only then is the placeholder
    turn (user text, processing notice) appended to the history and
    yielded. That emission is the first one of the call, and it comes
    before [run] is invoked. *)
Theorem placeholder_follows_initialization w s X history h a :
  truthy (strip X) = true ->
  is_processing (self s) = false ->
  supported (language (self s)) ->
  heap s !! history = Some h ->
  obtained w s = Ok a ->
  let o := exec w (process_message X history) s in
  let init := exec w initialize_agent (with_processing true s) in
  let placeholder := (X, processing_notice (language (self s))) in
  get_text (language (self s)) (u "processing") ∅ = Some (Ok (snd placeholder))
  /\ value init = Some (Ok tt)
  /\ emissions (trace init) = []
  /\ (exists rest,
        trace o
        = [EvGetProcessing false; EvSetProcessing true]
          ++ trace init
          ++ [EvGetLanguage (language (self s));
              EvListAppend history placeholder;
              EvYield history (h ++ [placeholder]) []]
          ++ rest
        /\ In (EvRun a X (run_result w a X)) rest)
  /\ head (emissions (trace o))
     = Some (EvYield history (h ++ [placeholder]) []).
Proof.
  intros HX Hidle Hlang Hh Ha o init placeholder.
  destruct (process_message_opening w s X history h a HX Hidle Hlang Hh Ha)
    as [rest Hrest].
  subst o. rewrite Hrest. clear Hrest. unfold opening. fold init placeholder.
  assert (Hinit : value init = Some (Ok tt) /\ emissions (trace init) = []).
  { subst init. rewrite exec_initialize_agent.
    unfold obtained in Ha. cbn [with_processing self agent].
    destruct (agent (self s)); [done|]. rewrite Ha. done. }
  destruct Hinit as [Hv He].
  split; [by apply get_text_processing|]. split; [done|]. split; [done|].
  split.
  - eexists. split.
    + rewrite <- !app_assoc. simpl. reflexivity.
    + right. right. by left.
  - unfold emissions in *. rewrite !filter_app, He. reflexivity.
Qed.

Lemma placeholder_follows_initialization_witness :
  head (emissions (trace (exec (sample_world (Ok (u "world")))
                            (process_message (u "hello") 1%positive)
                            (session []))))
  = Some (EvYield 1%positive [(u "hello", processing_notice (u "ja"))] []).
Proof.
  destruct (placeholder_follows_initialization
              (sample_world (Ok (u "world"))) (session [])
              (u "hello") 1%positive [] manus0)
    as (_ & _ & _ & _ & Hhead).
  - vm_compute. reflexivity.
  - reflexivity.
  - left. reflexivity.
  - vm_compute. reflexivity.
  - reflexivity.
  - exact Hhead.
Defined.

(** C3 as stated fails for the busy branch: a call that finds the flag
    set runs to its end and leaves the flag set. *)
Lemma busy_call_leaves_the_flag_set :
  let o := exec (sample_world (Ok (u "world")))
             (process_message (u "hello") 1%positive)
             (with_processing true (session [])) in
  value o = Some (Ok tt)
  /\ is_processing (self (final o)) <> false.
Proof. split; [vm_compute; reflexivity|]. vm_compute. discriminate. Qed.

Lemma process_message_quiet_busy w s X history :
  is_processing (self s) = true ->
  is_processing (self (final (exec w (process_message X history) s))) = true.
Proof.
  intros Hbusy. unfold process_message.
  destruct (truthy (strip X)); simpl negb; cbv iota.
  - unfold bind at 1. cbn [pbind perform exec handle after final].
    rewrite Hbusy. rewrite exec_quiet; [done|]. auto 10 with avoids.
  - rewrite exec_quiet; [done|]. auto with avoids.
Qed.

(** C3, amended. [is_processing] is false in a new controller. A call that
    runs to its end, by returning or by raising, leaves [is_processing]
    false when it went through the processing path (message not blank,
    flag found clear), whether [run] succeeded or an exception was caught
    or passed through; on the empty-input and busy branches it leaves the
    flag as it found it. Hence, for any number of overlapping calls and
    any interleaving of their steps, [is_processing] is false whenever no
    call is in flight. *)
Theorem flag_is_clear_when_no_call_is_in_flight :
  (forall lang, is_processing (WebUI_init lang) = false)
  /\ (forall w s X history,
        let o := exec w (process_message X history) s in
        is_Some (value o) ->
        (truthy (strip X) = true -> is_processing (self s) = false ->
         is_processing (self (final o)) = false)
        /\ (truthy (strip X) = false \/ is_processing (self s) = true ->
            is_processing (self (final o)) = is_processing (self s)))
  /\ (forall Σ, reachable Σ -> in_flight Σ = [] ->
        is_processing (self (controller Σ)) = false).
Proof.
  split; [done|]. split.
  - intros w s X history o Hv. split.
    + intros _ Hidle.
      destruct (proj1 (exec_discipline w) _
                  (process_message_balanced X history) s Hv) as [H|H];
        [exact H|]. subst o. congruence.
    + intros [HX|Hbusy].
      * subst o. apply exec_quiet. by apply process_message_quiet_blank.
      * subst o. rewrite Hbusy. by apply process_message_quiet_busy.
  - intros Σ HΣ Hnone. apply reachable_flag_owned in HΣ as [_ Hown].
    destruct (is_processing (self (controller Σ))); [|done].
    specialize (Hown eq_refl). rewrite Hnone in Hown. inversion Hown.
Qed.

Lemma flag_is_clear_when_no_call_is_in_flight_witness :
  is_processing
    (self (final (exec (sample_world (Raised (NonException (u "cancelled"))))
                    (process_message (u "hello") 1%positive) (session []))))
  = false
  /\ is_processing
       (self (controller {| controller := session []; in_flight := [] |}))
     = false.
Proof.
  destruct flag_is_clear_when_no_call_is_in_flight as (_ & Hcall & Hsys).
  split.
  - destruct (Hcall (sample_world (Raised (NonException (u "cancelled"))))
                (session []) (u "hello") 1%positive) as [Hclear _].
    + vm_compute. eauto.
    + apply Hclear; [vm_compute; reflexivity | reflexivity].
  - apply (Hsys {| controller := session []; in_flight := [] |}).
    + apply reachable_init.
    + reflexivity.
Defined.




(** ** [WebUI.cleanup] *)

Lemma exec_cleanup w s :
  exec w cleanup s =
    match agent (self s) with
    | None =>
        {| trace := [EvGetAgent None]; final := s; value := Some (Ok tt) |}
    | Some a =>
        match cleanup_result w a with
        | Ok _ =>
            {| trace := [EvGetAgent (Some a); EvGetAgent (Some a);
                         EvCleanup a (Ok tt); EvSetAgent None];
               final := with_agent None s;
               value := Some (Ok tt) |}
        | Raised e =>
            {| trace := [EvGetAgent (Some a); EvGetAgent (Some a);
                         EvCleanup a (Raised e)];
               final := s;
               value := Some (Raised e) |}
        end
    end.
Proof.
  unfold cleanup. cbn.
  destruct (agent (self s)) as [a|] eqn:Ha; [|done]. cbn. rewrite Ha. cbn.
  by destruct (cleanup_result w a) as [[]|e].
Qed.

Lemma cleanup_releases w s :
  value (exec w cleanup s) = Some (Ok tt) ->
  final (exec w cleanup s) = with_agent None s.
Proof.
  rewrite exec_cleanup. destruct s as [[[a|] c b lg] hp]; simpl.
  - by destruct (cleanup_result w a).
  - done.
Qed.

(** X1. [cleanup] is idempotent. Whenever it returns normally the
    controller holds no agent and everything else (flag, language, stored
    history, list objects) is as before; a second [cleanup] then only
    looks at [self.agent] and tears nothing down, whatever the agent's
    own [cleanup] would do. *)
Theorem cleanup_is_idempotent w w' s :
  value (exec w cleanup s) = Some (Ok tt) ->
  final (exec w cleanup s) = with_agent None s
  /\ exec w' cleanup (final (exec w cleanup s))
     = {| trace := [EvGetAgent None];
          final := final (exec w cleanup s);
          value := Some (Ok tt) |}.
Proof.
  intros Hv. pose proof (cleanup_releases w s Hv) as Hfinal.
  split; [done|]. rewrite Hfinal. by rewrite exec_cleanup.
Qed.

Lemma cleanup_is_idempotent_witness :
  exec broken_world cleanup
    (final (exec (sample_world (Ok (u "world"))) cleanup
              (with_agent (Some manus0) (session []))))
  = {| trace := [EvGetAgent None];
       final := final (exec (sample_world (Ok (u "world"))) cleanup
                         (with_agent (Some manus0) (session [])));
       value := Some (Ok tt) |}.
Proof.
  apply (cleanup_is_idempotent (sample_world (Ok (u "world"))) broken_world
           (with_agent (Some manus0) (session []))).
  vm_compute. reflexivity.
Defined.

(** X2. When the agent's own [cleanup] raises, [WebUI.cleanup] passes the
    exception on and does not release the handle: the controller is
    unchanged, and a later [cleanup] calls the teardown of the same handle
    again. *)
Theorem failed_cleanup_keeps_the_handle w w' s a e :
  agent (self s) = Some a ->
  cleanup_result w a = Raised e ->
  value (exec w cleanup s) = Some (Raised e)
  /\ final (exec w cleanup s) = s
  /\ In (EvCleanup a (cleanup_result w' a))
        (trace (exec w' cleanup (final (exec w cleanup s)))).
Proof.
  intros Ha He. rewrite exec_cleanup, Ha, He. cbn [final value trace].
  split; [done|]. split; [done|].
  rewrite exec_cleanup, Ha.
  destruct (cleanup_result w' a) as [[]|e']; cbn [trace]; simpl In; auto.
Qed.

Lemma failed_cleanup_keeps_the_handle_witness :
  agent (self (final (exec
     {| create_result := Ok manus0;
        run_result := fun _ _ => Ok [];
        cleanup_result := fun _ => Raised (OtherException (u "stuck"));
        config := sample_config |}
     cleanup (with_agent (Some manus0) (session []))))) = Some manus0.
Proof.
  destruct (failed_cleanup_keeps_the_handle
     {| create_result := Ok manus0;
        run_result := fun _ _ => Ok [];
        cleanup_result := fun _ => Raised (OtherException (u "stuck"));
        config := sample_config |}
     (sample_world (Ok [])) (with_agent (Some manus0) (session []))
     manus0 (OtherException (u "stuck"))) as (_ & Hs & _).
  - reflexivity.
  - reflexivity.
  - rewrite Hs. reflexivity.
Defined.

(** X3. After a [cleanup] that returned normally, the next submitted
    message that is not blank, on an idle controller, invokes the agent
    factory again. *)
Theorem submit_after_cleanup_creates_a_new_agent w w' s X history :
  value (exec w cleanup s) = Some (Ok tt) ->
  is_processing (self s) = false ->
  truthy (strip X) = true ->
  exists before later,
    trace (exec w' (process_message X history) (final (exec w cleanup s)))
    = before ++ EvCreate (create_result w') :: later.
Proof.
  intros Hv Hidle HX.
  rewrite (cleanup_releases w s Hv).
  destruct (process_message_reaches_factory w' (with_agent None s) X history
              HX Hidle eq_refl) as [rest Hrest].
  rewrite Hrest.
  exists [EvGetProcessing false; EvSetProcessing true; EvGetAgent None;
          EvLog INFO (u "Initializing Manus agent...")], rest.
  reflexivity.
Qed.

Lemma submit_after_cleanup_creates_a_new_agent_witness :
  exists before later,
    trace (exec (sample_world (Ok (u "world")))
             (process_message (u "hello") 1%positive)
             (final (exec (sample_world (Ok (u "world"))) cleanup
                       (with_agent (Some manus0) (session [])))))
    = before ++ EvCreate (Ok manus0) :: later.
Proof.
  apply (submit_after_cleanup_creates_a_new_agent
           (sample_world (Ok (u "world"))) (sample_world (Ok (u "world")))
           (with_agent (Some manus0) (session [])) (u "hello") 1%positive).
  - vm_compute. reflexivity.
  - reflexivity.
  - vm_compute. reflexivity.
Defined.

(** ** More on [process_message] *)

Lemma handle_agent w T (e : eff T) s r s' ev :
  handle w e s = Some (r, s', ev) ->
  is_set_agent ev = writes_agent T e
  /\ (writes_agent T e = false -> agent (self s') = agent (self s)).
Proof.
  destruct e; simpl; intros H;
    repeat match goal with
           | H : (_ ≫= _) = Some _ |- _ =>
               apply bind_Some in H as (? & ? & H)
           | H : match ?x with _ => _ end = Some _ |- _ => destruct x
           end;
    simplify_eq; split; done.
Qed.

Lemma exec_agentless {A} w (p : prog A) s ev :
  avoids writes_agent p -> In ev (trace (exec w p s)) ->
  is_set_agent ev = false.
Proof.
  intros Hp. revert s.
  induction Hp as [| |T e k He _ IH]; intros s; simpl; try done.
  destruct (handle w e s) as [[[r s'] ev']|] eqn:Hh; [|done].
  simpl. intros [<-|H]; [|by eapply IH].
  apply handle_agent in Hh as [-> _]. done.
Qed.

Lemma exec_agent_kept {A} w (p : prog A) s :
  (forall ev, In ev (trace (exec w p s)) -> is_set_agent ev = false) ->
  agent (self (final (exec w p s))) = agent (self s).
Proof.
  revert s. induction p as [a|T e k IH|]; intros s Hno; simpl in *; try done.
  destruct (handle w e s) as [[[r s'] ev]|] eqn:Hh; [|done].
  simpl in *. rewrite IH by auto.
  apply handle_agent in Hh as [Hev Hkeep]. apply Hkeep.
  rewrite <- Hev. auto.
Qed.

(** [self.agent] is only assigned on the processing path of a controller
    that holds no agent. *)
Lemma set_agent_event_inv w s X history ev :
  In ev (trace (exec w (process_message X history) s)) ->
  is_set_agent ev = true ->
  agent (self s) = None.
Proof.
  intros H Hev.
  assert (Hno : forall A (p : prog A) s0,
            avoids writes_agent p -> In ev (trace (exec w p s0)) -> False).
  { intros A p s0 Hp Hin. apply exec_agentless in Hin; [congruence|done]. }
  unfold process_message in H.
  destruct (truthy (strip X)) eqn:HX; simpl negb in H; cbv iota in H.
  2: { exfalso. eapply Hno; [|exact H]. auto with avoids. }
  unfold bind at 1 in H. cbn [pbind perform exec handle after trace] in H.
  destruct H as [<-|H]; [discriminate|].
  destruct (is_processing (self s)) eqn:Hidle.
  { exfalso. eapply Hno; [|exact H]. auto 10 with avoids. }
  apply In_trace_pbind in H as [H|(x & _ & H)].
  2: { exfalso. eapply Hno; [|exact H]. destruct x; auto with avoids. }
  apply In_trace_pbind in H as [H|(x & _ & H)].
  2: { exfalso. eapply Hno; [|exact H].
       apply avoids_pbind; [auto with avoids|]. intros [|]; constructor. }
  apply In_trace_pbind in H as [H|(x & _ & H)].
  2: { exfalso. eapply Hno; [|exact H].
       destruct x as [?|e]; [constructor|].
       destruct (is_Exception e); [|constructor]. auto 20 with avoids. }
  unfold bind at 1 in H. cbn [pbind perform exec handle after trace] in H.
  destruct H as [<-|H]; [discriminate|].
  apply In_trace_pbind in H as [H|(x & _ & H)].
  2: { exfalso. eapply Hno; [|exact H].
       destruct x as [?|e]; [|constructor].
       assert (avoids writes_agent (agent_run X))
         by (unfold agent_run; auto with avoids).
       auto 20 with avoids. }
  rewrite exec_initialize_agent in H.
  cbn [with_processing self agent] in H.
  destruct (agent (self s)) as [a0|]; [|done].
  simpl in H. destruct H as [<-|[]]. discriminate.
Qed.

(** X4. A call on a controller that already holds an agent never invokes
    the factory and never reassigns [self.agent]: the handle is the same
    after the call, and if the call invokes [run] it does so on that
    handle. *)
Theorem held_agent_is_reused w s X history a :
  agent (self s) = Some a ->
  let o := exec w (process_message X history) s in
  filter is_create (trace o) = []
  /\ filter is_set_agent (trace o) = []
  /\ agent (self (final o)) = Some a
  /\ (forall a' m r, In (EvRun a' m r) (trace o) -> a' = a).
Proof.
  intros Ha o.
  assert (Hset : forall ev, In ev (trace o) -> is_set_agent ev = false).
  { intros ev Hin. destruct (is_set_agent ev) eqn:E; [|done].
    apply set_agent_event_inv in Hin; [congruence|done]. }
  assert (Hcreate : forall ev, In ev (trace o) -> is_create ev = false).
  { intros [] Hin; try done.
    apply create_event_inv in Hin as (_ & _ & Hnone & _). congruence. }
  assert (Hnil : forall (P : event -> bool) (tr : list event),
            (forall ev, In ev tr -> P ev = false) -> filter P tr = []).
  { intros P tr. induction tr as [|ev tr IH]; intros Hall; [done|].
    rewrite filter_cons. rewrite (Hall ev) by (by left). simpl.
    apply IH. intros ev' Hin. apply Hall. by right. }
  split; [by apply Hnil|]. split; [by apply Hnil|].
  split.
  - subst o. rewrite exec_agent_kept; done.
  - intros a' m r Hin. apply run_event_inv in Hin as (_ & _ & _ & _ & Hob & _).
    unfold obtained in Hob. rewrite Ha in Hob. congruence.
Qed.

Lemma held_agent_is_reused_witness :
  filter is_create
    (trace (exec broken_world (process_message (u "hello") 1%positive)
              (with_agent (Some manus0) (session [])))) = [].
Proof.
  destruct (held_agent_is_reused broken_world
              (with_agent (Some manus0) (session [])) (u "hello") 1%positive
              manus0) as (Hcreate & _).
  - reflexivity.
  - exact Hcreate.
Defined.

(** X5. If [run] raises something that is not an [Exception] (a
    cancellation, an interrupt), the handler does not run: the exception
    leaves the call, no final emission follows, [is_processing] is
    cleared by the [finally] clause, and the history keeps the placeholder
    with the processing notice as its last turn. *)
Theorem interrupted_run_leaves_the_placeholder w s X history a m e :
  let o := exec w (process_message X history) s in
  In (EvRun a m (Raised e)) (trace o) ->
  is_Exception e = false ->
  let placeholder := (X, processing_notice (language (self s))) in
  value o = Some (Raised e)
  /\ is_processing (self (final o)) = false
  /\ exists h,
       heap s !! history = Some h
       /\ heap (final o) !! history = Some (h ++ [placeholder])
       /\ emissions (trace o) = [EvYield history (h ++ [placeholder]) []].
Proof.
  intros o Hrun He placeholder. subst o.
  apply run_event_inv in Hrun
    as (HX & Hidle & Hlang & [h Hh] & Ha & -> & HR).
  symmetry in HR.
  rewrite (process_message_interrupted w s X history h Hh HX Hlang Hidle
             a Ha e HR He).
  split; [done|]. split; [done|]. exists h. split; [done|].
  cbn [final settled heap trace]. rewrite lookup_insert_eq.
  split; [done|].
  unfold opening, emissions. rewrite exec_initialize_agent.
  cbn [with_processing self agent].
  destruct (agent (self s)); [done|]. by destruct (create_result w).
Qed.

Lemma interrupted_run_leaves_the_placeholder_witness :
  heap (final (exec (sample_world (Raised (NonException (u "cancelled"))))
                 (process_message (u "hello") 1%positive) (session [])))
    !! 1%positive
  = Some [(u "hello", processing_notice (u "ja"))].
Proof.
  destruct (interrupted_run_leaves_the_placeholder
              (sample_world (Raised (NonException (u "cancelled"))))
              (session []) (u "hello") 1%positive manus0 (u "hello")
              (NonException (u "cancelled")))
    as (_ & _ & h & Hh & Hfinal & _).
  - find_event.
  - reflexivity.
  - etransitivity; [exact Hfinal|].
    vm_compute in Hh. injection Hh as <-. reflexivity.
Defined.

(** X6. With a language that [TRANSLATIONS] does not hold, a submitted
    message that is not blank can never be answered: the call emits
    nothing, changes no list, and ends by raising. What it raises is the
    [KeyError] for the language, also when it was the handler's own lookup
    of the error text that failed, unless the factory raised something
    that is not an [Exception], which passes through. *)
Theorem unsupported_language_raises w s X history :
  truthy (strip X) = true ->
  ~ supported (language (self s)) ->
  let o := exec w (process_message X history) s in
  emissions (trace o) = []
  /\ heap (final o) = heap s
  /\ (forall r, value o = Some r ->
        r = Raised (KeyError (language (self s)))
        \/ exists e, r = Raised e /\ is_Exception e = false
                     /\ obtained w s = Raised e).
Proof.
  intros HX Hlang o. subst o.
  destruct s as [[ag c b lg] hp]. simpl in *.
  unfold process_message, obtained. rewrite HX. simpl.
  destruct b; cbn.
  { rewrite get_text_unsupported by assumption. cbn.
    split; [done|]. split; [done|]. intros r [= <-]. by left. }
  destruct ag as [a|]; cbn.
  - rewrite get_text_unsupported by assumption. cbn.
    destruct (str_exn (KeyError lg)) as [text|]; cbn.
    + rewrite get_text_unsupported by assumption. cbn.
      split; [done|]. split; [done|]. intros r [= <-]. by left.
    + split; [done|]. split; [done|]. intros r [=].
  - destruct (create_result w) as [a|e]; cbn.
    + rewrite get_text_unsupported by assumption. cbn.
      destruct (str_exn (KeyError lg)) as [text|]; cbn.
      * rewrite get_text_unsupported by assumption. cbn.
        split; [done|]. split; [done|]. intros r [= <-]. by left.
      * split; [done|]. split; [done|]. intros r [=].
    + destruct (is_Exception e) eqn:He; cbn.
      * destruct (str_exn e) as [text|]; cbn.
        -- rewrite get_text_unsupported by assumption. cbn.
           split; [done|]. split; [done|]. intros r [= <-]. by left.
        -- split; [done|]. split; [done|]. intros r [=].
      * split; [done|]. split; [done|]. intros r [= <-]. right. eauto.
Qed.

Lemma unsupported_language_raises_witness :
  let o := exec (sample_world (Ok (u "world")))
             (process_message (u "hello") 1%positive)
             (with_language (u "fr") (session [])) in
  emissions (trace o) = [] /\ value o = Some (Raised (KeyError (u "fr"))).
Proof.
  destruct (unsupported_language_raises (sample_world (Ok (u "world")))
              (with_language (u "fr") (session [])) (u "hello") 1%positive)
    as (Hem & _ & _).
  - vm_compute. reflexivity.
  - intros [H|H]; vm_compute in H; discriminate.
  - split; [exact Hem|]. vm_compute. reflexivity.
Defined.

(** ** [respond] and [async_to_sync_generator] *)

Lemma handle_yielded w T (e : eff T) s r s' ev :
  handle w e s = Some (r, s', ev) ->
  match yielded e with
  | Some (r0, it) =>
      r = r0 /\ s' = s /\ is_Some (heap s !! it.1)
      /\ items_of [ev] = [it] /\ not_yield ev = false
  | None => items_of [ev] = [] /\ not_yield ev = true
  end.
Proof.
  destruct e; simpl; intros H;
    repeat match goal with
           | H : (_ ≫= _) = Some _ |- _ =>
               apply bind_Some in H as (? & ? & H)
           | H : match ?x with _ => _ end = Some _ |- _ => destruct x
           end;
    simplify_eq; done.
Qed.

Lemma handle_lists_stay w T (e : eff T) s r s' ev l :
  handle w e s = Some (r, s', ev) ->
  is_Some (heap s !! l) -> is_Some (heap s' !! l).
Proof.
  destruct e; simpl; intros H Hl;
    repeat match goal with
           | H : (_ ≫= _) = Some _ |- _ =>
               apply bind_Some in H as (? & ? & H)
           | H : match ?x with _ => _ end = Some _ |- _ => destruct x
           end;
    simplify_eq; simpl; try done;
    rewrite lookup_insert; case_decide; eauto.
Qed.

Lemma exec_lists_stay {A} w (p : prog A) s l :
  is_Some (heap s !! l) -> is_Some (heap (final (exec w p s)) !! l).
Proof.
  revert s. induction p as [a|T e k IH|]; intros s Hl; simpl; try done.
  destruct (handle w e s) as [[[r s'] ev]|] eqn:Hh; [|done].
  simpl. apply IH. by eapply handle_lists_stay.
Qed.

Lemma items_of_cons ev tr : items_of (ev :: tr) = items_of [ev] ++ items_of tr.
Proof. unfold items_of. by destruct ev. Qed.

Lemma exec_items_stay {A} w (p : prog A) s a it :
  value (exec w p s) = Some a ->
  In it (items_of (trace (exec w p s))) ->
  is_Some (heap (final (exec w p s)) !! it.1).
Proof.
  revert s. induction p as [a0|T e k IH|]; intros s; cbn [exec];
    try (intros _ []).
  destruct (handle w e s) as [[[r s'] ev]|] eqn:Hh; [|intros _ []].
  cbn [after trace final value]. intros Hv Hin.
  rewrite items_of_cons in Hin.
  apply in_app_iff in Hin as [Hin|Hin]; [|by apply IH].
  pose proof (handle_yielded _ _ _ _ _ _ _ Hh) as Hy.
  destruct (yielded e) as [[r0 it0]|].
  - destruct Hy as (-> & -> & Hl & Hit & _). rewrite Hit in Hin.
    destruct Hin as [<-|[]]. by apply exec_lists_stay.
  - destruct Hy as [Hit _]. rewrite Hit in Hin. destruct Hin.
Qed.

Lemma exec_drain {A} w (p : prog A) results s a :
  value (exec w p s) = Some a ->
  exec w (drain p results) s
  = {| trace := filter (fun ev => not_yield ev = true) (trace (exec w p s));
       final := final (exec w p s);
       value := Some (a, results ++ items_of (trace (exec w p s))) |}.
Proof.
  revert s results.
  induction p as [a0|T e k IH|]; intros s results; cbn [exec drain].
  - intros [= ->]. cbn. by rewrite app_nil_r.
  - destruct (handle w e s) as [[[r s'] ev]|] eqn:Hh; [|intros [=]].
    cbn [after trace final value]. intros Hv.
    pose proof (handle_yielded _ _ _ _ _ _ _ Hh) as Hy.
    rewrite items_of_cons, filter_cons.
    destruct (yielded e) as [[r0 it0]|].
    + destruct Hy as (-> & -> & _ & -> & Hny).
      rewrite IH by done. rewrite Hny.
      rewrite decide_False by done. by rewrite <- app_assoc.
    + destruct Hy as [-> Hny]. cbn [exec]. rewrite Hh.
      rewrite IH by done. rewrite Hny.
      by rewrite decide_True.
  - intros [=].
Qed.

Lemma exec_yield_each w results s evs :
  mapM (shown (heap s)) results = Some evs ->
  exec w (yield_each results) s
  = {| trace := evs; final := s; value := Some (Ok tt) |}.
Proof.
  revert evs. induction results as [|[l echo] rest IH]; intros evs Hm.
  - by injection Hm as <-.
  - rewrite mapM_Some in Hm. apply Forall2_cons_inv_l in Hm
      as (ev & evs' & Hev & Hrest & ->).
    apply mapM_Some in Hrest. unfold shown in Hev. simpl in Hev.
    apply bind_Some in Hev as (v & Hv & [= <-]).
    cbn. rewrite Hv. cbn. rewrite (IH evs') by done. done.
Qed.

Lemma exec_respond w s X history r :
  value (exec w (process_message X history) s) = Some r ->
  exists evs,
    exec w (respond X history) s
    = {| trace := filter (fun ev => not_yield ev = true)
                    (trace (exec w (process_message X history) s)) ++ evs;
         final := final (exec w (process_message X history) s);
         value := Some r |}
    /\ match r with
       | Ok _ =>
           mapM (shown (heap (final (exec w (process_message X history) s))))
             (items_of (trace (exec w (process_message X history) s)))
           = Some evs
       | Raised _ => evs = []
       end.
Proof.
  intros Hv. unfold respond, bind, async_to_sync_generator.
  rewrite !exec_pbind. rewrite (exec_drain _ _ _ _ _ Hv).
  cbn [value final trace fst snd app].
  destruct r as [[]|e]; cbn [exec value final trace].
  - destruct (mapM (shown (heap (final (exec w (process_message X history)
                                          s))))
                (items_of (trace (exec w (process_message X history) s))))
      as [evs|] eqn:Hm.
    + exists evs. rewrite (exec_yield_each _ _ _ evs Hm).
      cbn [value final trace]. by rewrite app_nil_r.
    + exfalso. apply eq_None_not_Some in Hm. apply Hm.
      apply mapM_is_Some, Forall_forall. intros it Hit.
      apply list_elem_of_In in Hit.
      apply (exec_items_stay _ _ _ _ _ Hv) in Hit as [v Hl].
      unfold compose, shown. rewrite Hl. simpl. eauto.
  - exists []. by rewrite !app_nil_r.
Qed.

(** X7. [respond] hands nothing to the page while [process_message] is
    running: it performs the same effects as [process_message] and ends in
    the same state with the same result, and only then yields the
    collected items, each showing its list as it is at that moment, that
    is, at the end of the call. When [process_message] raises, [respond]
    raises the same exception and yields nothing. *)
Theorem respond_yields_after_the_call w s X history r :
  let o := exec w (process_message X history) s in
  let o' := exec w (respond X history) s in
  value o = Some r ->
  value o' = Some r
  /\ final o' = final o
  /\ exists evs,
       trace o' = filter (fun ev => not_yield ev = true) (trace o) ++ evs
       /\ match r with
          | Ok _ =>
              Forall2 (fun ev it =>
                         exists v, heap (final o) !! it.1 = Some v
                                   /\ ev = EvYield it.1 v it.2)
                evs (items_of (trace o))
          | Raised _ => evs = []
          end.
Proof.
  intros o o' Hv. subst o o'.
  destruct (exec_respond w s X history r Hv) as (evs & -> & Hevs).
  split; [done|]. split; [done|]. exists evs. split; [done|].
  destruct r as [[]|e]; [|done].
  apply mapM_Some in Hevs. apply Forall2_flip.
  eapply Forall2_impl; [exact Hevs|].
  intros it ev Hs. unfold shown in Hs.
  apply bind_Some in Hs as (v & Hl & [= <-]). eauto.
Qed.

Lemma respond_yields_after_the_call_witness :
  value (exec (sample_world (Raised (NonException (u "cancelled"))))
           (respond (u "hello") 1%positive) (session []))
  = Some (Raised (NonException (u "cancelled"))).
Proof.
  destruct (respond_yields_after_the_call
              (sample_world (Raised (NonException (u "cancelled"))))
              (session []) (u "hello") 1%positive
              (Raised (NonException (u "cancelled")))) as (Hv & _).
  - vm_compute. reflexivity.
  - exact Hv.
Defined.

Lemma emissions_without_yields tr :
  emissions (filter (fun ev => not_yield ev = true) tr) = [].
Proof.
  unfold emissions. induction tr as [|ev tr IH]; [done|].
  rewrite filter_cons. destruct (not_yield ev) eqn:E.
  - rewrite decide_True by done. rewrite filter_cons.
    unfold not_yield in E. destruct (is_yield ev); [done|].
    by rewrite decide_False by (by intros []).
  - by rewrite decide_False by done.
Qed.

(** X8. Because every emission of [process_message] is the caller's list
    itself, which the call goes on to change, the page never gets to see
    the placeholder through [respond]: when [run] returned, both
    emissions of [respond] show the history ending in the final
    response. *)
Theorem respond_never_shows_the_placeholder w s X history a m R :
  let o := exec w (process_message X history) s in
  let o' := exec w (respond X history) s in
  In (EvRun a m (Ok R)) (trace o) ->
  let lang := language (self s) in
  exists h,
    heap s !! history = Some h
    /\ emissions (trace o)
       = [EvYield history (h ++ [(X, processing_notice lang)]) [];
          EvYield history (h ++ [(X, completion lang R)]) []]
    /\ emissions (trace o')
       = [EvYield history (h ++ [(X, completion lang R)]) [];
          EvYield history (h ++ [(X, completion lang R)]) []].
Proof.
  intros o o' Hrun lang. subst o o'.
  apply run_event_inv in Hrun
    as (HX & Hidle & Hlang & [h Hh] & Ha & -> & HR).
  symmetry in HR. exists h. split; [done|].
  pose proof (process_message_done w s X history h Hh HX Hlang Hidle a Ha
                R HR) as Hdone. cbv zeta in Hdone.
  assert (Hem : emissions (trace (exec w (process_message X history) s))
                = [EvYield history (h ++ [(X, processing_notice lang)]) [];
                   EvYield history (h ++ [(X, completion lang R)]) []]).
  { rewrite Hdone. cbn [trace]. unfold opening, emissions.
    rewrite exec_initialize_agent. cbn [with_processing self agent].
    destruct (agent (self s)); [done|]. by destruct (create_result w). }
  split; [done|].
  assert (Hitems : items_of (trace (exec w (process_message X history) s))
                   = [(history, []); (history, [])]).
  { rewrite Hdone. cbn [trace]. unfold opening.
    rewrite exec_initialize_agent. cbn [with_processing self agent].
    destruct (agent (self s)); [done|]. by destruct (create_result w). }
  destruct (exec_respond w s X history (Ok tt)) as (evs & -> & Hevs).
  { by rewrite Hdone. }
  cbn [trace]. unfold emissions. rewrite filter_app.
  fold (emissions (filter (fun ev => not_yield ev = true)
                     (trace (exec w (process_message X history) s)))).
  rewrite emissions_without_yields. cbn [app].
  rewrite Hitems, Hdone in Hevs. cbn [final settled heap] in Hevs.
  unfold shown in Hevs. cbn in Hevs. rewrite lookup_insert_eq in Hevs.
  cbn in Hevs. injection Hevs as <-. done.
Qed.

Lemma respond_never_shows_the_placeholder_witness :
  emissions (trace (exec (sample_world (Ok (u "world")))
                      (respond (u "hello") 1%positive) (session [])))
  = [EvYield 1%positive [(u "hello", completion (u "ja") (u "world"))] [];
     EvYield 1%positive [(u "hello", completion (u "ja") (u "world"))] []].
Proof.
  destruct (respond_never_shows_the_placeholder
              (sample_world (Ok (u "world"))) (session [])
              (u "hello") 1%positive manus0 (u "hello") (u "world"))
    as (h & Hh & _ & Hem).
  - find_event.
  - etransitivity; [exact Hem|].
    vm_compute in Hh. injection Hh as <-. vm_compute. reflexivity.
Defined.

(** ** The language switch *)

(** X9. [change_language] writes [self.language] and nothing else, whatever
    its argument and whatever the controller is doing: agent, flag and
    lists are as before, and its steps read the configuration and the
    language only. With a supported language it returns one update for
    each of the ten outputs of the wiring, in their order. With any other
    code it has stored the code already when the first lookup raises
    [KeyError], which leaves the call instead of the updates. *)
Theorem change_language_sets_only_the_language w s lang :
  let o := exec w (change_language lang) s in
  final o = with_language lang s
  /\ Forall (fun ev => is_language_or_config ev = true) (trace o)
  /\ (supported lang ->
      exists updates,
        value o = Some (Ok updates) /\ map fst updates = language_outputs)
  /\ (~ supported lang -> value o = Some (Raised (KeyError lang))).
Proof.
  intros o. subst o.
  destruct s as [[ag c b lg] hp]. destruct w as [cr rr cl [m ws]].
  destruct (supported_dec lang) as [Hs|Hn].
  - assert (Hno : ~ supported lang -> False) by tauto.
    destruct Hs as [-> | ->].
    + split; [vm_compute; reflexivity|].
      split; [vm_compute; repeat constructor|].
      split; [|intros H; destruct (Hno H)].
      intros _. eexists. split; vm_compute; reflexivity.
    + split; [vm_compute; reflexivity|].
      split; [vm_compute; repeat constructor|].
      split; [|intros H; destruct (Hno H)].
      intros _. eexists. split; vm_compute; reflexivity.
  - unfold change_language. cbn.
    rewrite get_text_unsupported by assumption. cbn.
    split; [reflexivity|]. split; [repeat constructor|].
    split; [intros H; destruct (Hn H) | reflexivity].
Qed.

Lemma change_language_sets_only_the_language_witness :
  let o := exec (sample_world (Ok (u "world"))) (change_language (u "fr"))
             (with_processing true (session [])) in
  final o = with_language (u "fr") (with_processing true (session []))
  /\ value o = Some (Raised (KeyError (u "fr"))).
Proof.
  destruct (change_language_sets_only_the_language
              (sample_world (Ok (u "world")))
              (with_processing true (session [])) (u "fr"))
    as (Hfinal & _ & _ & Hraise).
  split; [exact Hfinal|].
  apply Hraise. intros [H|H]; vm_compute in H; discriminate.
Defined.

(** X10. [change_language] sends no update to the language selector and to
    the examples, so a switch leaves both as [create_gradio_interface]
    built them: for controllers in a supported language, the page after
    a switch shows on every output of the wiring what a page built in
    the new language shows, while the label of the selector and the
    example prompts differ from it as soon as the language has changed.
    The selector is built with the value ["ja"] in either language.
    Selecting the language the page is in changes nothing on it. *)
Theorem language_switch_skips_selector_and_examples w s lang :
  supported (language (self s)) ->
  supported lang ->
  exists page updates rebuilt,
    value (exec w create_gradio_interface s) = Some (Ok page)
    /\ value (exec w (change_language lang) s) = Some (Ok updates)
    /\ value (exec w create_gradio_interface (with_language lang s))
       = Some (Ok rebuilt)
    /\ Forall2 (follows_switch (bool_decide (language (self s) <> lang)))
         (apply_updates updates page) rebuilt
    /\ filter (fun shown => fst shown ∉ language_outputs)
         (apply_updates updates page)
       = filter (fun shown => fst shown ∉ language_outputs) page
    /\ map fst (filter (fun shown => fst shown ∉ language_outputs) page)
       = [language_selector; examples_component]
    /\ (attr_value ∘ snd) <$> head page = Some (Some (VStr (u "ja")))
    /\ (language (self s) = lang -> apply_updates updates page = page).
Proof.
  intros Hbuilt Hlang.
  destruct s as [[ag c b lg] hp]. simpl in *.
  destruct w as [cr rr cl [m ws]].
  destruct Hbuilt as [-> | ->]; destruct Hlang as [-> | ->];
    eexists _, _, _;
    (split; [vm_compute; reflexivity|]);
    (split; [vm_compute; reflexivity|]);
    (split; [vm_compute; reflexivity|]);
    (split;
     [vm_compute;
      repeat (constructor;
              [split; [reflexivity|];
               first [reflexivity | discriminate | intros _; discriminate]|]);
      constructor|]);
    (split; [vm_compute; reflexivity|]);
    (split; [vm_compute; reflexivity|]);
    (split; [vm_compute; reflexivity|]);
    first [intros _; vm_compute; reflexivity | intros H; discriminate H].
Qed.

Lemma language_switch_skips_selector_and_examples_witness :
  exists page updates,
    value (exec (sample_world (Ok (u "world"))) create_gradio_interface
             (session [])) = Some (Ok page)
    /\ value (exec (sample_world (Ok (u "world"))) (change_language (u "en"))
                (session [])) = Some (Ok updates)
    /\ filter (fun shown => fst shown ∉ language_outputs)
         (apply_updates updates page)
       = filter (fun shown => fst shown ∉ language_outputs) page.
Proof.
  destruct (language_switch_skips_selector_and_examples
              (sample_world (Ok (u "world"))) (session []) (u "en"))
    as (page & updates & rebuilt & Hpage & Hup & _ & _ & Hkept & _).
  - left. reflexivity.
  - right. reflexivity.
  - exists page, updates. split; [exact Hpage|]. split; [exact Hup|].
    exact Hkept.
Defined.

(** ** The history across a call *)

Lemma extends_keeps X h h' i (t : turn) :
  extends X h h' ->
  h !! i = Some t ->
  (S i < length h)%nat \/ fst t <> X ->
  h' !! i = Some t.
Proof.
  intros [-> | [[r ->] | (r & Hlast & ->)]] Hi Hkeep; [done| |].
  - by apply lookup_app_l_Some.
  - destruct (decide (i = Nat.pred (length h))) as [->|Hne].
    + exfalso. destruct Hkeep as [Hlt|Hne]; [lia|].
      unfold last_user_is in Hlast. rewrite last_lookup, Hi in Hlast.
      apply Hne. by apply bool_decide_eq_true in Hlast.
    + by rewrite list_lookup_insert_ne.
Qed.

Lemma extends_length X h h' :
  extends X h h' -> (length h <= length h' <= S (length h))%nat.
Proof.
  intros [-> | [[r ->] | (r & _ & ->)]];
    rewrite ?length_app, ?length_insert; simpl; lia.
Qed.

Ltac split_path Hh :=
  repeat (cbn -[fresh];
          rewrite ?Hh, ?lookup_insert_eq, ?set_last_snoc, ?last_user_is_snoc,
                  ?insert_insert_eq;
          try match goal with
              | |- context [lift (get_text ?l ?k ?a)] =>
                  destruct (get_text l k a) as [[?|?]|]
              | |- context [lift (option_map Ok (str_exn ?e))] =>
                  destruct (str_exn e)
              | |- context [match ?x with _ => _ end] =>
                  lazymatch x with
                  | get_text _ _ _ => destruct x as [[?|?]|]
                  | create_result _ => destruct x
                  | run_result _ _ _ => destruct x
                  | is_Exception _ => destruct x
                  | str_exn _ => destruct x
                  | truthy _ => destruct x
                  | last_user_is _ _ => destruct x eqn:?
                  end
              | Hlast : last_user_is ?v ?X = true
                |- context [set_last ?v ?t] =>
                  rewrite (set_last_recorded v X t Hlast)
              end).

(** The lists after a call: the history went through [extends] and the
    busy branch made one new list. *)
Lemma process_message_heap w s X history h :
  heap s !! history = Some h ->
  (exists h', extends X h h'
              /\ heap (final (exec w (process_message X history) s))
                 = <[history := h']> (heap s))
  \/ (exists r, heap (final (exec w (process_message X history) s))
                = <[fresh (dom (heap s)) := h ++ [(X, r)]]> (heap s)).
Proof.
  intros Hh. destruct s as [[ag c b lg] hp]. simpl in Hh.
  unfold process_message.
  destruct (truthy (strip X)); destruct b; destruct ag;
    split_path Hh.
  all: first
    [ right; eexists; reflexivity
    | left; exists h; split; [by left | by rewrite insert_id]
    | left; eexists; split; [right; left; eexists; reflexivity | reflexivity]
    | left; eexists; split;
      [right; right; eexists; split; [eassumption | reflexivity]
      | reflexivity] ].
Qed.

(** X11. A call never loses what the conversation held: of the history it
    was given, [process_message] keeps every turn but possibly the last,
    and the last too unless it is a turn of the same message (which the
    handler may overwrite); it adds at most one turn, a turn of its
    message. No other list that exists is changed: the busy branch puts
    its notice in a new list. This holds on every path, whatever the
    factory, [run] and the language do. *)
Theorem earlier_turns_are_kept w s X history h :
  heap s !! history = Some h ->
  let o := exec w (process_message X history) s in
  exists h',
    heap (final o) !! history = Some h'
    /\ extends X h h'
    /\ (length h <= length h' <= S (length h))%nat
    /\ (forall i (t : turn),
          h !! i = Some t -> (S i < length h)%nat \/ fst t <> X ->
          h' !! i = Some t)
    /\ (forall l v,
          l <> history -> heap s !! l = Some v ->
          heap (final o) !! l = Some v).
Proof.
  intros Hh o. subst o.
  destruct (process_message_heap w s X history h Hh)
    as [(h' & Hext & ->) | (r & ->)].
  - exists h'. split; [apply lookup_insert_eq|]. split; [exact Hext|].
    split; [by eapply extends_length|].
    split; [intros i t; by apply extends_keeps|].
    intros l v Hl Hv. by rewrite lookup_insert_ne.
  - assert (Hfresh : forall l v, heap s !! l = Some v ->
                                 fresh (dom (heap s)) <> l).
    { intros l v Hv <-. apply (is_fresh (dom (heap s))).
      apply elem_of_dom. eauto. }
    exists h. split; [rewrite lookup_insert_ne; eauto|].
    split; [by left|]. split; [lia|]. split; [done|].
    intros l v Hl Hv. rewrite lookup_insert_ne; eauto.
Qed.

Lemma earlier_turns_are_kept_witness :
  heap (final (exec broken_world (process_message (u "hello") 1%positive)
                 (session [(u "hi", VStr (u "there"));
                           (u "hello", VStr (u "again"))])))
    !! 1%positive
  = Some [(u "hi", VStr (u "there"));
          (u "hello", error_notice (u "ja") (u "boom"))].
Proof.
  destruct (earlier_turns_are_kept broken_world
              (session [(u "hi", VStr (u "there"));
                        (u "hello", VStr (u "again"))])
              (u "hello") 1%positive
              [(u "hi", VStr (u "there")); (u "hello", VStr (u "again"))])
    as (h' & Hh' & _).
  - reflexivity.
  - etransitivity; [exact Hh'|].
    vm_compute in Hh'. injection Hh' as <-. reflexivity.
Defined.

(** ** A language switch during a call *)

Lemma change_language_final w s lang :
  final (exec w (change_language lang) s) = with_language lang s.
Proof.
  destruct s as [[ag c b lg] hp]. destruct w as [cr rr cl [m ws]].
  destruct (supported_dec lang) as [[-> | ->]|Hn];
    [vm_compute; reflexivity | vm_compute; reflexivity |].
  unfold change_language. cbn.
  by rewrite get_text_unsupported by assumption.
Qed.

Lemma change_language_silent w s lang :
  emissions (trace (exec w (change_language lang) s)) = [].
Proof.
  destruct s as [[ag c b lg] hp]. destruct w as [cr rr cl [m ws]].
  destruct (supported_dec lang) as [[-> | ->]|Hn];
    [vm_compute; reflexivity | vm_compute; reflexivity |].
  unfold change_language. cbn.
  by rewrite get_text_unsupported by assumption.
Qed.

Lemma emissions_cons ev tr :
  emissions (ev :: tr) = (if is_yield ev then [ev] else []) ++ emissions tr.
Proof. unfold emissions. by destruct ev. Qed.

Lemma emissions_app tr tr' :
  emissions (tr ++ tr') = emissions tr ++ emissions tr'.
Proof. apply filter_app. Qed.

Arguments change_language : simpl never.

Ltac name_outcome o E :=
  match goal with
  | |- context [exec_overlap ?w ?n ?p ?q ?s] =>
      remember (exec_overlap w n p q s) as o eqn:E
  end.

Ltac overlap_run Hh E :=
  repeat (cbn -[fresh emissions] in E;
          rewrite ?Hh, ?change_language_final, ?lookup_insert_eq,
                  ?set_last_snoc, ?insert_insert_eq in E;
          rewrite ?get_text_processing, ?get_text_completed,
                  ?get_text_success in E by assumption).

(** X12. The language of each notice is the one the controller holds when
    the notice is looked up, not the one it held at the submit. When the
    selector is changed to [lang] while a call is between its lookup of
    the processing notice and its lookup of the response text (at the
    latest just after [run] returned), the placeholder is emitted in the
    old language and the response that replaces it is in the new one; the
    call ends as it would have otherwise, and the controller holds the new
    language. *)
Theorem language_switch_during_a_call w s X history h a answer lang n :
  truthy (strip X) = true ->
  is_processing (self s) = false ->
  supported (language (self s)) ->
  supported lang ->
  heap s !! history = Some h ->
  obtained w s = Ok a ->
  run_result w a X = Ok answer ->
  (length (opening w s X history h a) - 4 <= n
   <= S (length (opening w s X history h a)))%nat ->
  let o := exec_overlap w n (process_message X history)
             (change_language lang) s in
  let placeholder := (X, processing_notice (language (self s))) in
  let reply := (X, completion lang answer) in
  value o = Some (Ok tt)
  /\ emissions (trace o)
     = [EvYield history (h ++ [placeholder]) [];
        EvYield history (h ++ [reply]) []]
  /\ final o
     = with_language lang
         (settled (Some a) s (<[history := h ++ [reply]]> (heap s))).
Proof.
  intros HX Hidle Hs Hlang Hh Ha HR Hn o placeholder reply.
  subst o placeholder reply.
  unfold opening in Hn. rewrite exec_initialize_agent in Hn.
  destruct s as [[ag c b lg] hp]. simpl in *. subst b.
  unfold obtained in Ha. simpl in Ha.
  unfold process_message, completion, settled. rewrite HX.
  destruct ag as [a'|]; simpl in Hn.
  - injection Ha as ->.
    assert (Hcases : (n = 4 \/ n = 5 \/ n = 6 \/ n = 7 \/ n = 8 \/ n = 9)%nat)
      by lia.
    decompose [or] Hcases; subst n; name_outcome o E;
      overlap_run Hh E; rewrite ?HR in E; overlap_run Hh E;
      destruct (truthy answer); overlap_run Hh E;
      subst o; cbn -[fresh emissions];
      (split; [reflexivity|]);
      (split; [|reflexivity]);
      rewrite !emissions_cons, emissions_app, change_language_silent;
      reflexivity.
  - rewrite Ha in Hn. simpl in Hn.
    assert (Hcases :
              (n = 8 \/ n = 9 \/ n = 10 \/ n = 11 \/ n = 12 \/ n = 13)%nat)
      by lia.
    decompose [or] Hcases; subst n; name_outcome o E;
      overlap_run Hh E; rewrite ?Ha in E; overlap_run Hh E;
      rewrite ?HR in E; overlap_run Hh E;
      destruct (truthy answer); overlap_run Hh E;
      subst o; cbn -[fresh emissions];
      (split; [reflexivity|]);
      (split; [|reflexivity]);
      rewrite !emissions_cons, emissions_app, change_language_silent;
      reflexivity.
Qed.

Lemma language_switch_during_a_call_witness :
  emissions
    (trace (exec_overlap (sample_world (Ok (u "world"))) 10
              (process_message (u "hello") 1%positive)
              (change_language (u "en")) (session [])))
  = [EvYield 1%positive [(u "hello", processing_notice (u "ja"))] [];
     EvYield 1%positive [(u "hello", completion (u "en") (u "world"))] []].
Proof.
  destruct (language_switch_during_a_call (sample_world (Ok (u "world")))
              (session []) (u "hello") 1%positive [] manus0 (u "world")
              (u "en") 10)
    as (_ & Hem & _).
  - vm_compute. reflexivity.
  - reflexivity.
  - left. reflexivity.
  - right. reflexivity.
  - reflexivity.
  - reflexivity.
  - reflexivity.
  - vm_compute. lia.
  - exact Hem.
Defined.

(** ** A teardown during a call *)

Lemma str_exn_AttributeError text : str_exn (AttributeError text) = Some text.
Proof. reflexivity. Qed.

Ltac teardown_run Hh Hc E :=
  repeat (cbn -[fresh emissions] in E;
          rewrite ?Hh, ?Hc, ?str_exn_AttributeError, ?lookup_insert_eq,
                  ?set_last_snoc, ?last_user_is_snoc, ?insert_insert_eq in E;
          rewrite ?get_text_processing, ?get_text_error in E by assumption).

(** X13. Nothing keeps [cleanup] from running while a call is in flight.
    When it releases the agent after the call's [initialize_agent] and
    before the call reads [self.agent] for [run], the call finds [None]
    there: [run] is never invoked, the [AttributeError] of the failed
    attribute access is caught by the handler, and its text is what the
    history shows in place of the placeholder. The call ends normally
    with the flag cleared, and the controller holds no agent. *)
Theorem cleanup_during_a_call_fails_the_call w s X history h a n :
  truthy (strip X) = true ->
  is_processing (self s) = false ->
  supported (language (self s)) ->
  heap s !! history = Some h ->
  obtained w s = Ok a ->
  cleanup_result w a = Ok tt ->
  (length (opening w s X history h a) - 5 <= n
   < length (opening w s X history h a))%nat ->
  let o := exec_overlap w n (process_message X history) cleanup s in
  let placeholder := (X, processing_notice (language (self s))) in
  let reply :=
    (X, error_notice (language (self s))
          (u "'NoneType' object has no attribute 'run'")) in
  value o = Some (Ok tt)
  /\ Forall (fun ev => is_run ev = false) (trace o)
  /\ emissions (trace o)
     = [EvYield history (h ++ [placeholder]) [];
        EvYield history (h ++ [reply]) []]
  /\ final o = settled None s (<[history := h ++ [reply]]> (heap s)).
Proof.
  intros HX Hidle Hs Hh Ha Hc Hn o placeholder reply.
  subst o placeholder reply.
  unfold opening in Hn. rewrite exec_initialize_agent in Hn.
  destruct s as [[ag c b lg] hp]. simpl in *. subst b.
  unfold obtained in Ha. simpl in Ha.
  unfold process_message, error_notice, settled. rewrite HX.
  destruct ag as [a'|]; simpl in Hn.
  - injection Ha as ->.
    assert (Hcases : (n = 3 \/ n = 4 \/ n = 5 \/ n = 6 \/ n = 7)%nat) by lia.
    decompose [or] Hcases; subst n; name_outcome o E;
      teardown_run Hh Hc E;
      subst o; cbn -[fresh emissions];
      (split; [reflexivity|]);
      (split; [repeat constructor|]);
      (split; reflexivity).
  - rewrite Ha in Hn. simpl in Hn.
    assert (Hcases : (n = 7 \/ n = 8 \/ n = 9 \/ n = 10 \/ n = 11)%nat) by lia.
    decompose [or] Hcases; subst n; name_outcome o E;
      teardown_run Hh Hc E; rewrite ?Ha in E; teardown_run Hh Hc E;
      subst o; cbn -[fresh emissions];
      (split; [reflexivity|]);
      (split; [repeat constructor|]);
      (split; reflexivity).
Qed.

Lemma cleanup_during_a_call_fails_the_call_witness :
  heap (final (exec_overlap (sample_world (Ok (u "world"))) 9
                 (process_message (u "hello") 1%positive) cleanup
                 (session []))) !! 1%positive
  = Some [(u "hello",
           error_notice (u "ja")
             (u "'NoneType' object has no attribute 'run'"))].
Proof.
  destruct (cleanup_during_a_call_fails_the_call
              (sample_world (Ok (u "world"))) (session []) (u "hello")
              1%positive [] manus0 9)
    as (_ & _ & _ & Hfinal).
  - vm_compute. reflexivity.
  - reflexivity.
  - left. reflexivity.
  - reflexivity.
  - reflexivity.
  - reflexivity.
  - vm_compute. lia.
  - rewrite Hfinal. reflexivity.
Defined.

(** ** Two submits in a row *)

(** X14. Submits compose: when a first message is answered on an idle
    controller that holds no agent, and a second message is submitted
    afterwards with any history list, the factory is invoked once in
    all, both requests run on the handle it returned, in order, and each
    call puts the one turn of its message at the end of its list. *)
Theorem two_submits_share_one_agent w s X X' history history'
    (h h' : list turn) a R R' :
  truthy (strip X) = true ->
  truthy (strip X') = true ->
  is_processing (self s) = false ->
  supported (language (self s)) ->
  agent (self s) = None ->
  create_result w = Ok a ->
  run_result w a X = Ok R ->
  run_result w a X' = Ok R' ->
  heap s !! history = Some h ->
  let o := exec w (process_message X history) s in
  heap (final o) !! history' = Some h' ->
  let o' := exec w (process_message X' history') (final o) in
  let lang := language (self s) in
  value o = Some (Ok tt) /\ value o' = Some (Ok tt)
  /\ filter (fun ev => is_create ev || is_run ev = true)
       (trace o ++ trace o')
     = [EvCreate (Ok a); EvRun a X (Ok R); EvRun a X' (Ok R')]
  /\ heap (final o) !! history = Some (h ++ [(X, completion lang R)])
  /\ heap (final o') !! history' = Some (h' ++ [(X', completion lang R')])
  /\ agent (self (final o')) = Some a
  /\ is_processing (self (final o')) = false.
Proof.
  intros HX HX' Hidle Hlang Hag Hcr HR HR' Hh o Hh' o' lang.
  subst o o' lang.
  destruct s as [[ag c b lg] hp]. simpl in Hidle, Hlang, Hag. subst b ag.
  assert (Ha : obtained w (mkState (mkWebUI None c false lg) hp) = Ok a)
    by exact Hcr.
  rewrite (process_message_done w _ X history h Hh HX Hlang eq_refl a Ha R HR)
    in *.
  cbn [final value trace] in *.
  rewrite (process_message_done w _ X' history' h' Hh' HX' Hlang eq_refl a
             eq_refl R' HR').
  cbn [final value trace].
  split; [done|]. split; [done|].
  split.
  { unfold opening. rewrite !exec_initialize_agent.
    cbn [settled self agent with_processing]. rewrite Hcr. reflexivity. }
  split; [apply lookup_insert_eq|].
  split; [apply lookup_insert_eq|]. done.
Qed.

Lemma two_submits_share_one_agent_witness :
  heap (final (exec (sample_world (Ok (u "world")))
                 (process_message (u "again") 1%positive)
                 (final (exec (sample_world (Ok (u "world")))
                           (process_message (u "hello") 1%positive)
                           (session []))))) !! 1%positive
  = Some [(u "hello", completion (u "ja") (u "world"));
          (u "again", completion (u "ja") (u "world"))].
Proof.
  destruct (two_submits_share_one_agent (sample_world (Ok (u "world")))
              (session []) (u "hello") (u "again") 1%positive 1%positive
              [] [(u "hello", completion (u "ja") (u "world"))]
              manus0 (u "world") (u "world"))
    as (_ & _ & _ & _ & Hfinal & _).
  - vm_compute. reflexivity.
  - vm_compute. reflexivity.
  - reflexivity.
  - left. reflexivity.
  - reflexivity.
  - reflexivity.
  - reflexivity.
  - reflexivity.
  - reflexivity.
  - vm_compute. reflexivity.
  - exact Hfinal.
Defined.
